(** * 3d-chess: the rule engine (board, movement, game) as Rocq functions

    Sources embedded here:
    - [models/types.ts]    : Position, Piece, Move, Game, positionToKey,
                             isValidPosition, arePositionsEqual
    - [models/board.ts]    : setupBoard, addPiece, getPiece, removePiece,
                             movePiece, getPiecesByColor
    - [models/movement.ts] : getValidMoves and the six generators
    - [models/game.ts]     : createGame, makeMove, findKing, isKingInCheck,
                             hasValidMoves, updateGameState, the notation codec

    Conventions.  Coordinates are integers ([Z]) and are printed in plain
    decimal digits, as a template literal prints every safe integer
    (magnitude at most 2^53 - 1); larger numbers are outside this model.
    A [Map<string, Piece>] is
    an insertion-ordered association list, because [Map.forEach] visits the
    entries in insertion order and [findKing] returns the first match.  The
    functions that mutate their argument in the source return the new value
    here.  Every board slot owns its piece object (this is how [setupBoard]
    and [movePiece] build boards), so a piece is a value. *)

From Stdlib Require Import ZArith List String Ascii Bool Lia.
From Stdlib Require Import DecimalString DecimalZ DecimalPos.
Import ListNotations.
Open Scope string_scope.
Open Scope list_scope.
Open Scope Z_scope.

(** ** types.ts *)

Record Position : Type := mkPosition { x : Z; y : Z; z : Z }.

Inductive PieceColor : Type := WHITE | BLACK.

Inductive PieceType : Type := PAWN | ROOK | KNIGHT | BISHOP | QUEEN | KING.

(** [hasMoved?: boolean] is an optional property: [None] is the absent
    property, so ['hasMoved' in piece] is [hasMoved <> None]. *)
Record Piece : Type := mkPiece
  { type : PieceType;
    color : PieceColor;
    position : Position;
    hasMoved : option bool }.

Inductive GameState : Type := ACTIVE | CHECK | CHECKMATE | STALEMATE.

(** [isPromotion] and [promotionPiece] are never written by the engine. *)
Record Move : Type := mkMove
  { from : Position;
    to : Position;
    piece : Piece;
    capturedPiece : option Piece }.

Definition Board : Type := list (string * Piece).

Record Game : Type := mkGame
  { board : Board;
    currentTurn : PieceColor;
    moves : list Move;
    state : GameState }.

Definition PieceColor_eqb (a b : PieceColor) : bool :=
  match a, b with
  | WHITE, WHITE | BLACK, BLACK => true
  | _, _ => false
  end.

Definition PieceType_eqb (a b : PieceType) : bool :=
  match a, b with
  | PAWN, PAWN | ROOK, ROOK | KNIGHT, KNIGHT
  | BISHOP, BISHOP | QUEEN, QUEEN | KING, KING => true
  | _, _ => false
  end.

Definition GameState_eqb (a b : GameState) : bool :=
  match a, b with
  | ACTIVE, ACTIVE | CHECK, CHECK
  | CHECKMATE, CHECKMATE | STALEMATE, STALEMATE => true
  | _, _ => false
  end.

(** Template-literal rendering of an integer: ["0"], ["12"], ["-5"].  These
    are the digits JavaScript prints for a safe integer ([isSafeInteger]
    below); beyond that range the engine's text differs (exponent form,
    rounded digits). *)
Definition numberToString (n : Z) : string :=
  NilEmpty.string_of_int (Z.to_int n).

Definition positionToKey (p : Position) : string :=
  (numberToString (x p) ++ "," ++ numberToString (y p) ++ "," ++
   numberToString (z p))%string.

Definition isValidPosition (p : Position) : bool :=
  (1 <=? x p) && (x p <=? 8) &&
  (1 <=? y p) && (y p <=? 8) &&
  (1 <=? z p) && (z p <=? 8).

Definition arePositionsEqual (pos1 pos2 : Position) : bool :=
  (x pos1 =? x pos2) && (y pos1 =? y pos2) && (z pos1 =? z pos2).

(** ** The JavaScript [Map] operations used by the engine *)

Module JsMap.

Fixpoint get (m : Board) (k : string) : option Piece :=
  match m with
  | [] => None
  | (k', v) :: rest => if String.eqb k' k then Some v else get rest k
  end.

(** [set] keeps the slot of a key that is present and appends a new key. *)
Fixpoint set (m : Board) (k : string) (v : Piece) : Board :=
  match m with
  | [] => [(k, v)]
  | (k', v') :: rest =>
      if String.eqb k' k then (k, v) :: rest else (k', v') :: set rest k v
  end.

Definition delete (m : Board) (k : string) : Board :=
  filter (fun e => negb (String.eqb (fst e) k)) m.

(** The values in [forEach] order. *)
Definition values (m : Board) : list Piece := map snd m.

Definition keys (m : Board) : list string := map fst m.

End JsMap.

(** ** board.ts *)

Definition createEmptyBoard : Board := [].

Definition addPiece (b : Board) (p : Piece) : Board :=
  let key := positionToKey (position p) in
  JsMap.set b key p.

Definition getPiece (b : Board) (pos : Position) : option Piece :=
  let key := positionToKey pos in
  JsMap.get b key.

Definition removePiece (b : Board) (pos : Position) : option Piece * Board :=
  let key := positionToKey pos in
  let p := JsMap.get b key in
  match p with
  | Some _ => (p, JsMap.delete b key)
  | None => (p, b)
  end.

(** The [for (let x = 1; x <= 8; x++)] loop of [setupBaseLayer]. *)
Definition placePawns (b : Board) (c : PieceColor) (pawnRowY : Z) : Board :=
  fold_left
    (fun acc xi => addPiece acc (mkPiece PAWN c (mkPosition xi pawnRowY 1) (Some false)))
    [1; 2; 3; 4; 5; 6; 7; 8] b.

(** The parameter [zLayer] is the source's [z]; the body never reads it and
    writes [z: 1] in every position literal. *)
Definition setupBaseLayer (b : Board) (zLayer : Z) (c : PieceColor) : Board :=
  let backRowY := if PieceColor_eqb c WHITE then 1 else 8 in
  let pawnRowY := if PieceColor_eqb c WHITE then 2 else 7 in
  let b := placePawns b c pawnRowY in
  let b := addPiece b (mkPiece ROOK c (mkPosition 1 backRowY 1) (Some false)) in
  let b := addPiece b (mkPiece ROOK c (mkPosition 8 backRowY 1) (Some false)) in
  let b := addPiece b (mkPiece KNIGHT c (mkPosition 2 backRowY 1) None) in
  let b := addPiece b (mkPiece KNIGHT c (mkPosition 7 backRowY 1) None) in
  let b := addPiece b (mkPiece BISHOP c (mkPosition 3 backRowY 1) None) in
  let b := addPiece b (mkPiece BISHOP c (mkPosition 6 backRowY 1) None) in
  let b := addPiece b (mkPiece QUEEN c (mkPosition 4 backRowY 1) None) in
  addPiece b (mkPiece KING c (mkPosition 5 backRowY 1) (Some false)).

Definition setupBoard : Board :=
  let b := createEmptyBoard in
  let b := setupBaseLayer b 1 WHITE in
  let b := setupBaseLayer b 8 BLACK in
  b.

(** [piece.position = to; if ('hasMoved' in piece) piece.hasMoved = true]. *)
Definition relocated (p : Piece) (target : Position) : Piece :=
  mkPiece (type p) (color p) target
    (match hasMoved p with Some _ => Some true | None => None end).

Definition movePiece (b : Board) (src dst : Position) : option Piece * Board :=
  match removePiece b src with
  | (Some p, b1) =>
      let captured := getPiece b1 dst in
      let b2 := match captured with
                | Some _ => snd (removePiece b1 dst)
                | None => b1
                end in
      (captured, addPiece b2 (relocated p dst))
  | (None, b1) => (None, b1)
  end.

Definition getPiecesByColor (b : Board) (c : PieceColor) : list Piece :=
  filter (fun p => PieceColor_eqb (color p) c) (JsMap.values b).

(** ** movement.ts *)

Definition offset (p d : Position) : Position :=
  mkPosition (x p + x d) (y p + y d) (z p + z d).

Definition isEmpty (o : option Piece) : bool :=
  match o with None => true | Some _ => false end.

(** [pieceAtPos && pieceAtPos.color !== c]. *)
Definition isOpponent (o : option Piece) (c : PieceColor) : bool :=
  match o with
  | Some q => negb (PieceColor_eqb (color q) c)
  | None => false
  end.

(** The board has eight squares per axis; a ray leaves it after at most
    eight steps (lemma [slide_fuel] below), so eight iterations of the
    [while (true)] loop are all that can run. *)
Definition boardSize : nat := 8.

(** The [while (true)] loop of [getLinearMoves] for one direction, bounded by
    the number of iterations. *)
Fixpoint slide (fuel : nat) (b : Board) (pieceColor : PieceColor)
    (dir currentPos : Position) : list Position :=
  match fuel with
  | O => []
  | S fuel' =>
      let currentPos := offset currentPos dir in
      if negb (isValidPosition currentPos) then []
      else
        match getPiece b currentPos with
        | None => currentPos :: slide fuel' b pieceColor dir currentPos
        | Some pieceAtPos =>
            if negb (PieceColor_eqb (color pieceAtPos) pieceColor)
            then [currentPos]
            else []
        end
  end.

Definition getLinearMoves (start : Position) (directions : list Position)
    (b : Board) (pieceColor : PieceColor) : list Position :=
  flat_map (fun dir => slide boardSize b pieceColor dir start) directions.

Definition getPawnMoves (p : Piece) (b : Board) : list Position :=
  let px := x (position p) in
  let py := y (position p) in
  let pz := z (position p) in
  let direction := if PieceColor_eqb (color p) WHITE then 1 else -1 in
  let forwardPos := mkPosition px (py + direction) pz in
  let forward :=
    if isValidPosition forwardPos && isEmpty (getPiece b forwardPos) then
      forwardPos ::
      (match hasMoved p with
       | Some true => []
       | _ =>
           let doubleMove := mkPosition px (py + 2 * direction) pz in
           if isValidPosition doubleMove && isEmpty (getPiece b doubleMove)
           then [doubleMove] else []
       end)
    else [] in
  let capturePositions :=
    [ mkPosition (px - 1) (py + direction) pz;
      mkPosition (px + 1) (py + direction) pz ] in
  let captures :=
    filter (fun pos => isValidPosition pos && isOpponent (getPiece b pos) (color p))
           capturePositions in
  let upPos := mkPosition px py (pz + direction) in
  let up :=
    if isValidPosition upPos && isEmpty (getPiece b upPos) then [upPos] else [] in
  let diagonalCaptures :=
    [ mkPosition (px - 1) (py + direction) (pz + 1);
      mkPosition (px + 1) (py + direction) (pz + 1);
      mkPosition (px - 1) (py + direction) (pz - 1);
      mkPosition (px + 1) (py + direction) (pz - 1) ] in
  let diagonals :=
    filter (fun pos => isValidPosition pos && isOpponent (getPiece b pos) (color p))
           diagonalCaptures in
  forward ++ captures ++ up ++ diagonals.

Definition rookDirections : list Position :=
  [ mkPosition 1 0 0; mkPosition (-1) 0 0;
    mkPosition 0 1 0; mkPosition 0 (-1) 0;
    mkPosition 0 0 1; mkPosition 0 0 (-1) ].

Definition getRookMoves (p : Piece) (b : Board) : list Position :=
  getLinearMoves (position p) rookDirections b (color p).

Definition knightOffsets : list Position :=
  [ mkPosition 1 2 0; mkPosition 2 1 0;
    mkPosition (-1) 2 0; mkPosition (-2) 1 0;
    mkPosition 1 (-2) 0; mkPosition 2 (-1) 0;
    mkPosition (-1) (-2) 0; mkPosition (-2) (-1) 0;
    mkPosition 1 0 2; mkPosition 2 0 1;
    mkPosition (-1) 0 2; mkPosition (-2) 0 1;
    mkPosition 1 0 (-2); mkPosition 2 0 (-1);
    mkPosition (-1) 0 (-2); mkPosition (-2) 0 (-1);
    mkPosition 0 1 2; mkPosition 0 2 1;
    mkPosition 0 (-1) 2; mkPosition 0 (-2) 1;
    mkPosition 0 1 (-2); mkPosition 0 2 (-1);
    mkPosition 0 (-1) (-2); mkPosition 0 (-2) (-1) ].

(** [!q || q.color !== c]: the square is free or holds an opponent. *)
Definition isFreeOrOpponent (o : option Piece) (c : PieceColor) : bool :=
  match o with
  | None => true
  | Some q => negb (PieceColor_eqb (color q) c)
  end.

Definition getKnightMoves (p : Piece) (b : Board) : list Position :=
  filter
    (fun newPos =>
       isValidPosition newPos && isFreeOrOpponent (getPiece b newPos) (color p))
    (map (offset (position p)) knightOffsets).

Definition bishopDirections : list Position :=
  [ mkPosition 1 1 0; mkPosition 1 (-1) 0;
    mkPosition (-1) 1 0; mkPosition (-1) (-1) 0;
    mkPosition 1 0 1; mkPosition 1 0 (-1);
    mkPosition (-1) 0 1; mkPosition (-1) 0 (-1);
    mkPosition 0 1 1; mkPosition 0 1 (-1);
    mkPosition 0 (-1) 1; mkPosition 0 (-1) (-1);
    mkPosition 1 1 1; mkPosition 1 1 (-1);
    mkPosition 1 (-1) 1; mkPosition 1 (-1) (-1);
    mkPosition (-1) 1 1; mkPosition (-1) 1 (-1);
    mkPosition (-1) (-1) 1; mkPosition (-1) (-1) (-1) ].

Definition getBishopMoves (p : Piece) (b : Board) : list Position :=
  getLinearMoves (position p) bishopDirections b (color p).

Definition getQueenMoves (p : Piece) (b : Board) : list Position :=
  getRookMoves p b ++ getBishopMoves p b.

(** The three nested [for (d = -1; d <= 1; d++)] loops, in loop order, with
    the [continue] on the zero offset. *)
Definition kingOffsets : list Position :=
  filter
    (fun d => negb ((x d =? 0) && (y d =? 0) && (z d =? 0)))
    (flat_map (fun dx =>
       flat_map (fun dy =>
         map (fun dz => mkPosition dx dy dz) [-1; 0; 1]) [-1; 0; 1]) [-1; 0; 1]).

Definition getKingMoves (p : Piece) (b : Board) : list Position :=
  filter
    (fun newPos =>
       isValidPosition newPos && isFreeOrOpponent (getPiece b newPos) (color p))
    (map (offset (position p)) kingOffsets).

Definition getValidMoves (p : Piece) (b : Board) : list Position :=
  match type p with
  | PAWN => getPawnMoves p b
  | ROOK => getRookMoves p b
  | KNIGHT => getKnightMoves p b
  | BISHOP => getBishopMoves p b
  | QUEEN => getQueenMoves p b
  | KING => getKingMoves p b
  end.

Definition isValidMove (p : Piece) (targetPos : Position) (b : Board) : bool :=
  let validMoves := getValidMoves p b in
  existsb
    (fun pos =>
       (x pos =? x targetPos) && (y pos =? y targetPos) && (z pos =? z targetPos))
    validMoves.

(** ** game.ts *)

Definition opposite (c : PieceColor) : PieceColor :=
  if PieceColor_eqb c WHITE then BLACK else WHITE.

Definition findKing (b : Board) (c : PieceColor) : option Piece :=
  let pieces := getPiecesByColor b c in
  find (fun p => PieceType_eqb (type p) KING) pieces.

(** The [for (const piece of opponentPieces)] loop of [isKingInCheck], with
    its early [return true]. *)
Fixpoint anyReaches (b : Board) (target : Position) (pieces : list Piece) : bool :=
  match pieces with
  | [] => false
  | p :: rest =>
      let validMoves := getValidMoves p b in
      if existsb (fun pos => arePositionsEqual pos target) validMoves
      then true
      else anyReaches b target rest
  end.

Definition isKingInCheck (b : Board) (kingColor : PieceColor) : bool :=
  match findKing b kingColor with
  | None => false
  | Some king =>
      let opponentColor := opposite kingColor in
      let opponentPieces := getPiecesByColor b opponentColor in
      anyReaches b (position king) opponentPieces
  end.

(** The loop of [hasValidMoves]: [validMoves.length > 0] returns early. *)
Fixpoint anyMobile (b : Board) (pieces : list Piece) : bool :=
  match pieces with
  | [] => false
  | p :: rest =>
      let validMoves := getValidMoves p b in
      if (0 <? Z.of_nat (List.length validMoves)) then true else anyMobile b rest
  end.

Definition hasValidMoves (g : Game) (c : PieceColor) : bool :=
  let pieces := getPiecesByColor (board g) c in
  anyMobile (board g) pieces.

Definition updateGameState (g : Game) : Game :=
  let currentColor := currentTurn g in
  let kingInCheck := isKingInCheck (board g) currentColor in
  let hasMovesAvailable := hasValidMoves g currentColor in
  let newState :=
    if kingInCheck
    then (if hasMovesAvailable then CHECK else CHECKMATE)
    else (if hasMovesAvailable then ACTIVE else STALEMATE) in
  mkGame (board g) (currentTurn g) (moves g) newState.

Definition createGame : Game :=
  mkGame setupBoard WHITE [] ACTIVE.

(** [makeMove] returns its boolean together with the game after the call. *)
Definition makeMove (g : Game) (src dst : Position) : bool * Game :=
  if GameState_eqb (state g) CHECKMATE || GameState_eqb (state g) STALEMATE
  then (false, g)
  else
    match getPiece (board g) src with
    | None => (false, g)
    | Some p =>
        if negb (PieceColor_eqb (color p) (currentTurn g)) then (false, g)
        else if negb (isValidMove p dst (board g)) then (false, g)
        else
          let captured := getPiece (board g) dst in
          let board' := snd (movePiece (board g) src dst) in
          let move := mkMove src dst (relocated p dst) captured in
          let g1 := mkGame board' (opposite (currentTurn g))
                           (moves g ++ [move]) (state g) in
          (true, updateGameState g1)
    end.

Definition getValidMovesForPosition (g : Game) (pos : Position) : list Position :=
  match getPiece (board g) pos with
  | None => []
  | Some p =>
      if negb (PieceColor_eqb (color p) (currentTurn g)) then []
      else getValidMoves p (board g)
  end.

(** *** The notation codec

    A JavaScript string whose code units are all below 256 is the Rocq string
    with the same codes; code units from 256 on are outside this model. *)

Definition charCode (c : ascii) : Z := Z.of_N (N_of_ascii c).

(** [String.fromCharCode(n)]: the unit [n mod 2^16] (representable here when
    it is below 256, which covers every [x] from -64 to 191). *)
Definition fromCharCode (n : Z) : string :=
  String (ascii_of_N (Z.to_N (n mod 65536))) "".

Definition positionToNotation (p : Position) : string :=
  let fileChar := fromCharCode (charCode "A" + x p - 1) in
  (fileChar ++ numberToString (y p) ++ numberToString (z p))%string.

(** [c.toUpperCase().charCodeAt(0)] for a one-unit string [c]: the ASCII and
    Latin-1 letters, with the micro sign (to U+039C), the sharp s (to "SS")
    and the y with diaeresis (to U+0178). *)
Definition upperCharCode (c : ascii) : Z :=
  let n := charCode c in
  if (97 <=? n) && (n <=? 122) then n - 32
  else if n =? 181 then 924
  else if n =? 223 then 83
  else if (224 <=? n) && (n <=? 254) && negb (n =? 247) then n - 32
  else if n =? 255 then 376
  else n.

(** White space and line terminators that [parseInt] skips. *)
Definition isWhiteSpace (c : ascii) : bool :=
  let n := charCode c in
  ((9 <=? n) && (n <=? 13)) || (n =? 32) || (n =? 160).

Fixpoint trimStart (s : string) : string :=
  match s with
  | String c rest => if isWhiteSpace c then trimStart rest else s
  | EmptyString => s
  end.

Definition digitValue (radix : Z) (c : ascii) : option Z :=
  let n := charCode c in
  let v := if (48 <=? n) && (n <=? 57) then n - 48
           else if (97 <=? n) && (n <=? 122) then n - 87
           else if (65 <=? n) && (n <=? 90) then n - 55
           else radix in
  if v <? radix then Some v else None.

(** The value of the longest prefix of radix digits; [acc] is [None] until a
    digit has been read. *)
Fixpoint readDigits (radix : Z) (s : string) (acc : option Z) : option Z :=
  match s with
  | String c rest =>
      match digitValue radix c with
      | Some d =>
          readDigits radix rest
            (Some (radix * (match acc with Some a => a | None => 0 end) + d))
      | None => acc
      end
  | EmptyString => acc
  end.

(** [parseInt(s)] without a radix argument; [None] is [NaN].  The result is
    the exact integer: its rounding to a double is monotone and leaves the
    comparisons with 1 and 8 as they are. *)
Definition parseInt (s : string) : option Z :=
  let s := trimStart s in
  let '(sign, s) :=
    match s with
    | String "-" rest => (-1, rest)
    | String "+" rest => (1, rest)
    | _ => (1, s)
    end in
  let '(radix, s) :=
    match s with
    | String "0" (String "x" rest) => (16, rest)
    | String "0" (String "X" rest) => (16, rest)
    | _ => (10, s)
    end in
  match readDigits radix s None with
  | Some mathInt => Some (sign * mathInt)
  | None => None
  end.

Definition notationToPosition (notation : string) : option Position :=
  if Z.of_nat (String.length notation) <? 3 then None
  else
    match notation with
    | String c0 (String c1 rest) =>
        let x := upperCharCode c0 - charCode "A" + 1 in
        match parseInt (String c1 EmptyString), parseInt rest with
        | Some y, Some z =>
            if (x <? 1) || (x >? 8) || (y <? 1) || (y >? 8) || (z <? 1) || (z >? 8)
            then None
            else Some (mkPosition x y z)
        | _, _ => None
        end
    | _ => None
    end.

(** ** Notions used by the statements *)

(** No comma occurs in the string. *)
Fixpoint commaFree (s : string) : bool :=
  match s with
  | EmptyString => true
  | String c rest => negb (Ascii.eqb c ",") && commaFree rest
  end.

(** The keys of a [Map] are pairwise distinct. *)
Definition wfBoard (b : Board) : Prop := NoDup (JsMap.keys b).

(** Game states reached from [createGame] through calls of [makeMove] that
    return [true]. *)
Inductive reachable : Game -> Prop :=
| reachable_init : reachable createGame
| reachable_move (g g' : Game) (src dst : Position) :
    reachable g -> makeMove g src dst = (true, g') -> reachable g'.

(** Plays a list of moves; [None] as soon as one of them is rejected. *)
Fixpoint playMoves (g : Game) (ms : list (Position * Position)) : option Game :=
  match ms with
  | [] => Some g
  | (src, dst) :: rest =>
      match makeMove g src dst with
      | (true, g') => playMoves g' rest
      | (false, _) => None
      end
  end.

Definition hasKing (b : Board) (c : PieceColor) : Prop := findKing b c <> None.

(** The classification of (board, side to move) in the words of the
    specification: the king of [c] stands on a legal destination of some
    piece of the other colour. *)
Definition kingAttacked (b : Board) (c : PieceColor) : Prop :=
  exists king attacker,
    findKing b c = Some king /\
    In attacker (JsMap.values b) /\ color attacker = opposite c /\
    In (position king) (getValidMoves attacker b).

(** Some piece of colour [c] has a legal destination. *)
Definition hasDestination (b : Board) (c : PieceColor) : Prop :=
  exists p,
    In p (JsMap.values b) /\ color p = c /\ getValidMoves p b <> [].

Inductive classified (b : Board) (c : PieceColor) : GameState -> Prop :=
| classified_check :
    kingAttacked b c -> hasDestination b c -> classified b c CHECK
| classified_checkmate :
    kingAttacked b c -> ~ hasDestination b c -> classified b c CHECKMATE
| classified_active :
    ~ kingAttacked b c -> hasDestination b c -> classified b c ACTIVE
| classified_stalemate :
    ~ kingAttacked b c -> ~ hasDestination b c -> classified b c STALEMATE.

(** The square [k] steps from [p] along [d]. *)
Definition rayAt (p d : Position) (k : Z) : Position :=
  mkPosition (x p + k * x d) (y p + k * y d) (z p + k * z d).

(** A direction of a sliding piece: components in -1..1, not all zero. *)
Definition isDirection (d : Position) : Prop :=
  (-1 <= x d <= 1) /\ (-1 <= y d <= 1) /\ (-1 <= z d <= 1) /\
  (x d <> 0 \/ y d <> 0 \/ z d <> 0).

Definition nonZero (d : Position) : Prop := x d <> 0 \/ y d <> 0 \/ z d <> 0.

(** A destination on the board, off the mover's own square, and not held by
    a piece of the mover's colour. *)
Definition safeMove (p : Piece) (b : Board) (m : Position) : Prop :=
  isValidPosition m = true /\ m <> position p /\
  isFreeOrOpponent (getPiece b m) (color p) = true.

(** The [direction] of [getPawnMoves]: +1 along y for White, -1 for Black. *)
Definition pawnDirection (c : PieceColor) : Z :=
  if PieceColor_eqb c WHITE then 1 else -1.

(** The single and the double step of a pawn along y. *)
Definition singleStep (p : Piece) : Position :=
  mkPosition (x (position p)) (y (position p) + pawnDirection (color p))
             (z (position p)).

Definition doubleStep (p : Piece) : Position :=
  mkPosition (x (position p)) (y (position p) + 2 * pawnDirection (color p))
             (z (position p)).

(** ** Concrete games used as test inputs *)

(** The white queen climbs to layer 2, crosses to (4,7,2) and takes the
    black king on (5,8,1); Black answers with two pawn steps. *)
Definition kingHunt : list (Position * Position) :=
  [ (mkPosition 4 1 1, mkPosition 4 1 2);
    (mkPosition 1 7 1, mkPosition 1 6 1);
    (mkPosition 4 1 2, mkPosition 4 7 2);
    (mkPosition 1 6 1, mkPosition 1 5 1);
    (mkPosition 4 7 2, mkPosition 5 8 1) ].

Definition kinglessGame : Game :=
  match playMoves createGame kingHunt with
  | Some g => g
  | None => createGame
  end.

(** The game after the white knight of (2,1,1) has gone to (3,3,1). *)
Definition afterKnightMove : Game :=
  snd (makeMove createGame (mkPosition 2 1 1) (mkPosition 3 3 1)).

(** The game after the white pawn of (1,2,1) has gone to (1,3,1). *)
Definition afterPawnStep : Game :=
  snd (makeMove createGame (mkPosition 1 2 1) (mkPosition 1 3 1)).

(** White to move with a single pawn in the far corner: no destination. *)
Definition stalemateGame : Game :=
  updateGameState
    (mkGame [("1,8,8", mkPiece PAWN WHITE (mkPosition 1 8 8) (Some true))]
            WHITE [] ACTIVE).

(** A white rook on (1,1,1) with a black pawn two squares up the y axis. *)
Definition rookA1 : Piece := mkPiece ROOK WHITE (mkPosition 1 1 1) (Some false).

Definition rookBoard : Board :=
  addPiece (addPiece createEmptyBoard rookA1)
           (mkPiece PAWN BLACK (mkPosition 1 3 1) (Some false)).

(** The rank (y) on which the initial layout puts a piece. *)
Definition expectedRank (p : Piece) : Z :=
  match color p, type p with
  | WHITE, PAWN => 2
  | WHITE, _ => 1
  | BLACK, PAWN => 7
  | BLACK, _ => 8
  end.

(** ** The coordinate entry field of the game page

    [parsePosition] and [formatPosition] of the page component (the script
    block at the end of [three/components.ts]). *)

Definition isSeparator (c : ascii) : bool :=
  Ascii.eqb c " " || Ascii.eqb c ",".

(** [input.split(/[ ,]+/)]: the pieces between the maximal runs of spaces and
    commas; a run at either end leaves an empty piece there, and the empty
    string gives one empty piece.  [cur] is the piece being read and [inRun]
    tells that the previous character was a separator. *)
Fixpoint splitSeparators (s cur : string) (inRun : bool) : list string :=
  match s with
  | EmptyString => [cur]
  | String c rest =>
      if isSeparator c
      then (if inRun then splitSeparators rest EmptyString true
            else cur :: splitSeparators rest EmptyString true)
      else splitSeparators rest (cur ++ String c EmptyString)%string false
  end.

Definition parsePosition (input : string) : option Position :=
  let parts := splitSeparators input EmptyString false in
  match parts with
  | [part0; part1; part2] =>
      match parseInt part0, parseInt part1, parseInt part2 with
      | Some x, Some y, Some z =>
          if (x <? 1) || (x >? 8) || (y <? 1) || (y >? 8) || (z <? 1) || (z >? 8)
          then None
          else Some (mkPosition x y z)
      | _, _, _ => None
      end
  | _ => None
  end.

Definition formatPosition (p : Position) : string :=
  ("(" ++ numberToString (x p) ++ "," ++ numberToString (y p) ++ "," ++
   numberToString (z p) ++ ")")%string.

(** ** Notions used by the further properties *)

Definition isKing (c : PieceColor) (p : Piece) : Prop :=
  type p = KING /\ color p = c.

(** The absolute differences of two positions on the three axes. *)
Definition dx (a b : Position) : Z := Z.abs (x b - x a).
Definition dy (a b : Position) : Z := Z.abs (y b - y a).
Definition dz (a b : Position) : Z := Z.abs (z b - z a).

(** An L-shaped jump inside one coordinate plane: one axis unchanged, one
    changed by 1 and one by 2. *)
Definition isKnightJump (a b : Position) : Prop :=
  (dx a b = 0 /\ ((dy a b = 1 /\ dz a b = 2) \/ (dy a b = 2 /\ dz a b = 1))) \/
  (dy a b = 0 /\ ((dx a b = 1 /\ dz a b = 2) \/ (dx a b = 2 /\ dz a b = 1))) \/
  (dz a b = 0 /\ ((dx a b = 1 /\ dy a b = 2) \/ (dx a b = 2 /\ dy a b = 1))).

(** One of the 26 neighbours. *)
Definition isNeighbour (a b : Position) : Prop :=
  a <> b /\ dx a b <= 1 /\ dy a b <= 1 /\ dz a b <= 1.

(** The directions along which a kind of piece slides. *)
Definition directionsOf (t : PieceType) : list Position :=
  match t with
  | ROOK => rookDirections
  | BISHOP => bishopDirections
  | QUEEN => rookDirections ++ bishopDirections
  | _ => []
  end.

(** The number of recorded moves that captured a piece. *)
Definition captureCount (ms : list Move) : nat :=
  List.length (filter (fun m => negb (isEmpty (capturedPiece m))) ms).

(** Exactly one axis changes. *)
Definition isAxial (a b : Position) : Prop :=
  (0 < dx a b /\ dy a b = 0 /\ dz a b = 0) \/
  (dx a b = 0 /\ 0 < dy a b /\ dz a b = 0) \/
  (dx a b = 0 /\ dy a b = 0 /\ 0 < dz a b).

(** At least two axes change, and all the axes that change do so by the same
    amount. *)
Definition isDiagonal (a b : Position) : Prop :=
  exists k, 1 <= k /\
    (dx a b = 0 \/ dx a b = k) /\ (dy a b = 0 \/ dy a b = k) /\
    (dz a b = 0 \/ dz a b = k) /\ 2 * k <= dx a b + dy a b + dz a b.

(** The vertical step of a pawn, along z. *)
Definition verticalStep (p : Piece) : Position :=
  mkPosition (x (position p)) (y (position p))
             (z (position p) + pawnDirection (color p)).

(** A capture square of a pawn: one file to the side, one rank ahead, at most
    one layer up or down. *)
Definition isPawnCapture (p : Piece) (m : Position) : Prop :=
  dx (position p) m = 1 /\
  y m = y (position p) + pawnDirection (color p) /\
  dz (position p) m <= 1.

Definition Position_eq_dec (a b : Position) : {a = b} + {a <> b}.
Proof. decide equality; apply Z.eq_dec. Defined.

(** [Number.isSafeInteger]: the integers a template literal prints digit
    for digit. *)
Definition isSafeInteger (n : Z) : Prop :=
  - 9007199254740991 <= n <= 9007199254740991.

Definition isSafePosition (p : Position) : Prop :=
  isSafeInteger (x p) /\ isSafeInteger (y p) /\ isSafeInteger (z p).

(** ** The classification stated on the entries of the board

    Nothing here goes through [findKing], [isKingInCheck] or
    [hasValidMoves]: the king of a side is an entry of the board. *)

(** [k] is the king of side [c]: the first entry of the board, in insertion
    order, that is a king of colour [c] (the only one when the side has one
    king). *)
Definition sideKing (b : Board) (c : PieceColor) (k : Piece) : Prop :=
  exists before key after,
    b = before ++ (key, k) :: after /\
    type k = KING /\ color k = c /\
    forall e, In e before -> ~ (type (snd e) = KING /\ color (snd e) = c).

(** No entry of the board is a king of colour [c]. *)
Definition noKingOnBoard (b : Board) (c : PieceColor) : Prop :=
  forall key p, In (key, p) b -> ~ (type p = KING /\ color p = c).

(** The king of side [c] stands on a legal destination of a piece of the
    other colour. *)
Definition kingUnderAttack (b : Board) (c : PieceColor) : Prop :=
  exists king key attacker,
    sideKing b c king /\
    In (key, attacker) b /\ color attacker <> c /\
    In (position king) (getValidMoves attacker b).

(** Some piece of side [c] on the board has a legal destination. *)
Definition sideCanMove (b : Board) (c : PieceColor) : Prop :=
  exists key p,
    In (key, p) b /\ color p = c /\ getValidMoves p b <> [].

Inductive positionClass (b : Board) (c : PieceColor) : GameState -> Prop :=
| positionClass_check :
    kingUnderAttack b c -> sideCanMove b c -> positionClass b c CHECK
| positionClass_checkmate :
    kingUnderAttack b c -> ~ sideCanMove b c -> positionClass b c CHECKMATE
| positionClass_active :
    ~ kingUnderAttack b c -> sideCanMove b c -> positionClass b c ACTIVE
| positionClass_stalemate :
    ~ kingUnderAttack b c -> ~ sideCanMove b c -> positionClass b c STALEMATE.

(** * Proofs *)

(** ** Equality tests *)

Lemma PieceColor_eqb_eq (a b : PieceColor) : PieceColor_eqb a b = true <-> a = b.
Proof. destruct a, b; simpl; split; congruence. Qed.

Lemma PieceColor_eqb_neq (a b : PieceColor) : PieceColor_eqb a b = false <-> a <> b.
Proof. destruct a, b; simpl; split; congruence. Qed.

Lemma PieceColor_eqb_refl (a : PieceColor) : PieceColor_eqb a a = true.
Proof. now destruct a. Qed.

Lemma PieceType_eqb_eq (a b : PieceType) : PieceType_eqb a b = true <-> a = b.
Proof. destruct a, b; simpl; split; congruence. Qed.

Lemma opposite_neq (c : PieceColor) : opposite c <> c.
Proof. destruct c; discriminate. Qed.

Lemma opposite_involutive (c : PieceColor) : opposite (opposite c) = c.
Proof. now destruct c. Qed.

Lemma Position_eta (p : Position) : mkPosition (x p) (y p) (z p) = p.
Proof. now destruct p. Qed.

Lemma arePositionsEqual_eq (p q : Position) : arePositionsEqual p q = true <-> p = q.
Proof.
  destruct p as [a b c], q as [a' b' c']; unfold arePositionsEqual; simpl.
  rewrite !andb_true_iff, !Z.eqb_eq. split.
  - intros [[-> ->] ->]; reflexivity.
  - intros [= -> -> ->]; auto.
Qed.

Lemma isValidPosition_bounds (p : Position) :
  isValidPosition p = true <->
  1 <= x p <= 8 /\ 1 <= y p <= 8 /\ 1 <= z p <= 8.
Proof.
  unfold isValidPosition. rewrite !andb_true_iff, !Z.leb_le. lia.
Qed.

Lemma isValidMove_In (p : Piece) (t : Position) (b : Board) :
  isValidMove p t b = true <-> In t (getValidMoves p b).
Proof.
  unfold isValidMove. rewrite existsb_exists. split.
  - intros (q & Hq & He). change (arePositionsEqual q t = true) in He.
    apply arePositionsEqual_eq in He. now subst.
  - intros H. exists t. split; [assumption|].
    change (arePositionsEqual t t = true). now apply arePositionsEqual_eq.
Qed.

(** ** Keys identify coordinates *)

Lemma numberToString_inj (a b : Z) : numberToString a = numberToString b -> a = b.
Proof.
  unfold numberToString. intros H.
  apply (f_equal NilEmpty.int_of_string) in H. rewrite !NilEmpty.isi in H.
  injection H as H. now apply DecimalZ.to_int_inj.
Qed.

Lemma string_of_uint_commaFree (d : Decimal.uint) :
  commaFree (NilEmpty.string_of_uint d) = true.
Proof. induction d; simpl; auto. Qed.

Lemma numberToString_commaFree (n : Z) : commaFree (numberToString n) = true.
Proof.
  unfold numberToString. destruct (Z.to_int n); simpl;
    apply string_of_uint_commaFree.
Qed.

(** A comma-free prefix before a comma is determined by the whole string. *)
Lemma split_at_comma (s1 s2 r1 r2 : string) :
  commaFree s1 = true -> commaFree s2 = true ->
  (s1 ++ String "," r1)%string = (s2 ++ String "," r2)%string ->
  s1 = s2 /\ r1 = r2.
Proof.
  revert s2. induction s1 as [|c s1 IH]; intros [|c2 s2]; simpl; intros H1 H2 E.
  - injection E as ->. auto.
  - injection E as <- _. rewrite Ascii.eqb_refl in H2. discriminate.
  - injection E as -> _. rewrite Ascii.eqb_refl in H1. discriminate.
  - injection E as -> E. apply andb_true_iff in H1 as [_ H1].
    apply andb_true_iff in H2 as [_ H2].
    destruct (IH s2 H1 H2 E) as [-> ->]. auto.
Qed.

Lemma positionToKey_inj (p q : Position) : positionToKey p = positionToKey q -> p = q.
Proof.
  destruct p as [a b c], q as [a' b' c']. unfold positionToKey; cbn [x y z].
  intros E.
  apply split_at_comma in E as [Ea E]; try apply numberToString_commaFree.
  apply split_at_comma in E as [Eb Ec]; try apply numberToString_commaFree.
  apply numberToString_inj in Ea, Eb, Ec. now subst.
Qed.

(** ** The map operations *)

Module JsMapFacts.
Import JsMap.

Lemma get_set_same (m : Board) k v : get (set m k v) k = Some v.
Proof.
  induction m as [|[k' v'] m IH]; simpl.
  - now rewrite String.eqb_refl.
  - destruct (String.eqb k' k) eqn:E; simpl.
    + now rewrite String.eqb_refl.
    + now rewrite E.
Qed.

Lemma get_set_other (m : Board) k k' v :
  k <> k' -> get (set m k v) k' = get m k'.
Proof.
  intros Hne. induction m as [|[k0 v0] m IH]; simpl.
  - destruct (String.eqb_spec k k'); [contradiction|reflexivity].
  - destruct (String.eqb_spec k0 k) as [->|Hk]; simpl.
    + destruct (String.eqb_spec k k'); [contradiction|reflexivity].
    + now rewrite IH.
Qed.

Lemma get_delete_same (m : Board) k : get (delete m k) k = None.
Proof.
  induction m as [|[k0 v0] m IH]; simpl; [reflexivity|].
  destruct (String.eqb_spec k0 k) as [->|Hk]; simpl; [assumption|].
  destruct (String.eqb_spec k0 k); [contradiction|assumption].
Qed.

Lemma get_delete_other (m : Board) k k' :
  k <> k' -> get (delete m k) k' = get m k'.
Proof.
  intros Hne. induction m as [|[k0 v0] m IH]; simpl; [reflexivity|].
  destruct (String.eqb_spec k0 k) as [->|Hk]; simpl.
  - destruct (String.eqb_spec k k'); [contradiction|assumption].
  - now rewrite IH.
Qed.

Lemma get_In (m : Board) k v : get m k = Some v -> In (k, v) m.
Proof.
  induction m as [|[k0 v0] m IH]; simpl; [discriminate|].
  destruct (String.eqb_spec k0 k) as [->|Hk].
  - intros [= ->]. now left.
  - intros H. right. now apply IH.
Qed.

Lemma In_get (m : Board) k v : NoDup (keys m) -> In (k, v) m -> get m k = Some v.
Proof.
  induction m as [|[k0 v0] m IH]; simpl; [contradiction|].
  intros Hnd [[= -> ->]|Hin].
  - now rewrite String.eqb_refl.
  - inversion Hnd as [|? ? Hnotin Hnd']; subst.
    destruct (String.eqb_spec k0 k) as [->|Hk].
    + exfalso. apply Hnotin. change k with (fst (k, v)). now apply in_map.
    + now apply IH.
Qed.

Lemma In_delete (m : Board) k e : In e (delete m k) <-> In e m /\ fst e <> k.
Proof.
  unfold delete. rewrite filter_In, negb_true_iff.
  destruct (String.eqb_spec (fst e) k); intuition congruence.
Qed.

Lemma In_keys_delete (m : Board) k k' :
  In k' (keys (delete m k)) <-> In k' (keys m) /\ k' <> k.
Proof.
  unfold keys. rewrite !in_map_iff. split.
  - intros ([k0 v0] & <- & Hin). apply In_delete in Hin as [Hin Hne].
    split; [|assumption]. exists (k0, v0). now split.
  - intros (([k0 v0] & <- & Hin) & Hne). exists (k0, v0). split; [reflexivity|].
    apply In_delete. now split.
Qed.

Lemma NoDup_delete (m : Board) k : NoDup (keys m) -> NoDup (keys (delete m k)).
Proof.
  induction m as [|[k0 v0] m IH]; simpl; intros Hnd; [constructor|].
  inversion Hnd as [|? ? Hnotin Hnd']; subst.
  destruct (String.eqb_spec k0 k) as [->|Hk]; simpl.
  - now apply IH.
  - constructor; [|now apply IH].
    intros Hin. apply In_keys_delete in Hin. tauto.
Qed.

Lemma keys_set (m : Board) k v k' :
  In k' (keys (set m k v)) <-> In k' (keys m) \/ k' = k.
Proof.
  induction m as [|[k0 v0] m IH]; simpl.
  - intuition congruence.
  - destruct (String.eqb_spec k0 k) as [->|Hk]; simpl.
    + intuition congruence.
    + rewrite IH. intuition congruence.
Qed.

Lemma NoDup_set (m : Board) k v : NoDup (keys m) -> NoDup (keys (set m k v)).
Proof.
  induction m as [|[k0 v0] m IH]; simpl; intros Hnd.
  - constructor; [intros []|constructor].
  - inversion Hnd as [|? ? Hnotin Hnd']; subst.
    destruct (String.eqb_spec k0 k) as [->|Hk]; simpl.
    + now constructor.
    + constructor; [|now apply IH].
      intros Hin. apply keys_set in Hin as [Hin|Heq]; [contradiction|congruence].
Qed.

Lemma In_set_absent (m : Board) k v e :
  ~ In k (keys m) -> (In e (set m k v) <-> In e m \/ e = (k, v)).
Proof.
  induction m as [|[k0 v0] m IH]; simpl; intros Hnotin.
  - intuition congruence.
  - destruct (String.eqb_spec k0 k) as [->|Hk]; simpl.
    + exfalso. apply Hnotin. now left.
    + rewrite IH by tauto. tauto.
Qed.

End JsMapFacts.

(** ** Sliding along one direction *)

Section Slide.
Variable b : Board.
Variable pieceColor : PieceColor.
Variable dir : Position.

Lemma rayAt_one (p : Position) : rayAt p dir 1 = offset p dir.
Proof. unfold rayAt, offset. f_equal; lia. Qed.

Lemma rayAt_offset (p : Position) (k : Z) :
  rayAt (offset p dir) dir k = rayAt p dir (k + 1).
Proof. unfold rayAt, offset; simpl. f_equal; lia. Qed.

(** A square is produced by the walk exactly when every square before it on
    the ray is on the board and empty, and the square itself is on the
    board and free or held by the opponent. *)
Lemma slide_In (fuel : nat) (cur m : Position) :
  In m (slide fuel b pieceColor dir cur) <->
  exists k : Z,
    1 <= k <= Z.of_nat fuel /\ m = rayAt cur dir k /\
    (forall j, 1 <= j < k ->
       isValidPosition (rayAt cur dir j) = true /\
       getPiece b (rayAt cur dir j) = None) /\
    isValidPosition m = true /\
    isFreeOrOpponent (getPiece b m) pieceColor = true.
Proof.
  revert cur. induction fuel as [|f IH]; intros cur.
  - simpl. split; [intros []|]. intros (k & Hk & _). lia.
  - cbn [slide]. rewrite <- rayAt_one.
    destruct (isValidPosition (rayAt cur dir 1)) eqn:Hv; cbn [negb].
    + destruct (getPiece b (rayAt cur dir 1)) as [q|] eqn:Hq.
      * destruct (PieceColor_eqb (color q) pieceColor) eqn:Hc; cbn [negb].
        -- split; [intros []|]. intros (k & Hk & -> & Hbefore & _ & Hfree).
           assert (k = 1 \/ 1 < k) as [->|Hgt] by lia.
           ++ rewrite Hq in Hfree. simpl in Hfree. now rewrite Hc in Hfree.
           ++ destruct (Hbefore 1) as [_ He]; [lia|]. congruence.
        -- split.
           ++ intros [<-|[]]. exists 1. repeat split; try lia; try assumption.
              rewrite Hq. simpl. now rewrite Hc.
           ++ intros (k & Hk & -> & Hbefore & _ & _).
              assert (k = 1 \/ 1 < k) as [->|Hgt] by lia; [now left|].
              destruct (Hbefore 1) as [_ He]; [lia|]. congruence.
      * cbn [In]. rewrite IH. split.
        -- intros [<-|(k & Hk & -> & Hbefore & Hvm & Hfree)].
           ++ exists 1. repeat split; try lia; try assumption.
              now rewrite Hq.
           ++ rewrite rayAt_one, rayAt_offset in *. exists (k + 1).
              repeat split; try lia; try assumption.
              ** assert (j = 1 \/ 1 <= j - 1 < k) as [->|Hj] by lia.
                 --- now rewrite rayAt_one.
                 --- destruct (Hbefore (j - 1) Hj) as [H1 _].
                     rewrite rayAt_offset in H1.
                     now replace (j - 1 + 1) with j in H1 by lia.
              ** assert (j = 1 \/ 1 <= j - 1 < k) as [->|Hj] by lia.
                 --- now rewrite rayAt_one.
                 --- destruct (Hbefore (j - 1) Hj) as [_ H2].
                     rewrite rayAt_offset in H2.
                     now replace (j - 1 + 1) with j in H2 by lia.
        -- intros (k & Hk & -> & Hbefore & Hvm & Hfree).
           assert (k = 1 \/ 1 < k) as [->|Hgt] by lia; [now left|].
           right. exists (k - 1). rewrite rayAt_one, !rayAt_offset.
           replace (k - 1 + 1) with k by lia.
           repeat split; try lia; try assumption.
           ++ rewrite rayAt_offset. apply Hbefore. lia.
           ++ rewrite rayAt_offset. apply Hbefore. lia.
    + split; [intros []|]. intros (k & Hk & -> & Hbefore & Hvm & _).
      assert (k = 1 \/ 1 < k) as [->|Hgt] by lia; [congruence|].
      destruct (Hbefore 1) as [H1 _]; [lia|]. congruence.
Qed.

Lemma slide_S (f : nat) (cur : Position) :
  slide (S f) b pieceColor dir cur =
  if negb (isValidPosition (offset cur dir)) then []
  else match getPiece b (offset cur dir) with
       | None => offset cur dir :: slide f b pieceColor dir (offset cur dir)
       | Some q =>
           if negb (PieceColor_eqb (color q) pieceColor)
           then [offset cur dir] else []
       end.
Proof. reflexivity. Qed.

(** Once the ray has left the board, more iterations change nothing. *)
Lemma slide_stable (n : nat) : forall (f f' : nat) (cur : Position),
  isValidPosition (rayAt cur dir (Z.of_nat n + 1)) = false ->
  (n <= f)%nat -> (n <= f')%nat ->
  slide f b pieceColor dir cur = slide f' b pieceColor dir cur.
Proof.
  induction n as [|n IH]; intros f f' cur Hout Hf Hf'.
  - simpl in Hout. rewrite rayAt_one in Hout.
    destruct f, f'; cbn [slide]; rewrite ?Hout; reflexivity.
  - destruct f as [|f]; [lia|]. destruct f' as [|f']; [lia|].
    cbn [slide].
    destruct (isValidPosition (offset cur dir)); cbn [negb]; [|reflexivity].
    destruct (getPiece b (offset cur dir)); [reflexivity|].
    f_equal. apply IH; try lia.
    rewrite rayAt_offset.
    now replace (Z.of_nat n + 1 + 1) with (Z.of_nat (S n) + 1) by lia.
Qed.

Hypothesis dir_ok : isDirection dir.

Lemma ray_leaves_board (p : Position) :
  isValidPosition p = true -> isValidPosition (rayAt p dir 8) = false.
Proof.
  intros Hp. apply isValidPosition_bounds in Hp.
  destruct (isValidPosition (rayAt p dir 8)) eqn:E; [|reflexivity].
  apply isValidPosition_bounds in E. unfold rayAt in E; cbn [x y z] in E.
  destruct dir_ok as (Hx & Hy & Hz & Hnz). lia.
Qed.

(** The loop of [getLinearMoves] stops within [boardSize] iterations: any
    larger bound gives the same list. *)
Lemma slide_fuel (f : nat) (start : Position) :
  (boardSize <= f)%nat ->
  slide f b pieceColor dir start = slide boardSize b pieceColor dir start.
Proof.
  change boardSize with (S 7). intros Hf.
  destruct f as [|f]; [lia|]. rewrite (slide_S f start), (slide_S 7 start).
  destruct (isValidPosition (offset start dir)) eqn:Hv; cbn [negb]; [|reflexivity].
  destruct (getPiece b (offset start dir)); [reflexivity|].
  f_equal. apply (slide_stable 7); try lia.
  apply (ray_leaves_board _ Hv).
Qed.

Lemma rayAt_not_start (p : Position) (k : Z) : 1 <= k -> rayAt p dir k <> p.
Proof.
  intros Hk E. destruct p as [a b0 c]. unfold rayAt in E; cbn [x y z] in E.
  injection E as E1 E2 E3.
  destruct dir_ok as (Hx & Hy & Hz & Hnz). nia.
Qed.

End Slide.

(** ** Every generator stays on the board and off friendly squares *)

Ltac each_offset :=
  repeat (apply Forall_cons; [unfold isDirection, nonZero; cbn [x y z]; lia|]);
  apply Forall_nil.

Lemma rookDirections_ok : Forall isDirection rookDirections.
Proof. unfold rookDirections. each_offset. Qed.

Lemma bishopDirections_ok : Forall isDirection bishopDirections.
Proof. unfold bishopDirections. each_offset. Qed.

Lemma knightOffsets_nonZero : Forall nonZero knightOffsets.
Proof. unfold knightOffsets. each_offset. Qed.

Lemma kingOffsets_nonZero : Forall nonZero kingOffsets.
Proof.
  let l := eval vm_compute in kingOffsets in change kingOffsets with l.
  each_offset.
Qed.

Lemma offset_not_start (p d : Position) : nonZero d -> offset p d <> p.
Proof.
  intros Hd E. destruct p as [a b c]. unfold offset in E; cbn [x y z] in E.
  injection E as E1 E2 E3. unfold nonZero in Hd. lia.
Qed.

Lemma isOpponent_free (o : option Piece) (c : PieceColor) :
  isOpponent o c = true -> isFreeOrOpponent o c = true.
Proof. destruct o; simpl; [auto|discriminate]. Qed.

Lemma isEmpty_free (o : option Piece) (c : PieceColor) :
  isEmpty o = true -> isFreeOrOpponent o c = true.
Proof. destruct o; simpl; [discriminate|reflexivity]. Qed.

Lemma isFreeOrOpponent_spec (o : option Piece) (c : PieceColor) :
  isFreeOrOpponent o c = true <-> (forall q, o = Some q -> color q <> c).
Proof.
  destruct o as [q|]; simpl.
  - rewrite negb_true_iff, PieceColor_eqb_neq. split.
    + intros H q' [= <-]. exact H.
    + intros H. now apply H.
  - split; [intros _ q [=]|reflexivity].
Qed.

Lemma getLinearMoves_In start dirs b c m :
  In m (getLinearMoves start dirs b c) <->
  exists d, In d dirs /\ In m (slide boardSize b c d start).
Proof. unfold getLinearMoves. now rewrite in_flat_map. Qed.

Lemma getLinearMoves_safe (p : Piece) (b : Board) dirs m :
  Forall isDirection dirs ->
  In m (getLinearMoves (position p) dirs b (color p)) -> safeMove p b m.
Proof.
  intros Hdirs Hin. apply getLinearMoves_In in Hin as (d & Hd & Hin).
  rewrite Forall_forall in Hdirs. specialize (Hdirs d Hd).
  apply slide_In in Hin as (k & Hk & -> & _ & Hv & Hfree).
  repeat split; try assumption. apply rayAt_not_start; [assumption|lia].
Qed.

Lemma stepMoves_safe (p : Piece) (b : Board) offs m :
  Forall nonZero offs ->
  In m (filter (fun newPos =>
                  isValidPosition newPos &&
                  isFreeOrOpponent (getPiece b newPos) (color p))
               (map (offset (position p)) offs)) ->
  safeMove p b m.
Proof.
  intros Hoffs Hin. apply filter_In in Hin as [Hin Hok].
  apply andb_true_iff in Hok as [Hv Hfree].
  apply in_map_iff in Hin as (d & <- & Hd).
  rewrite Forall_forall in Hoffs.
  repeat split; try assumption. apply offset_not_start. now apply Hoffs.
Qed.

Lemma pawnDirection_cases (c : PieceColor) :
  (if PieceColor_eqb c WHITE then 1 else -1) = 1 \/
  (if PieceColor_eqb c WHITE then 1 else -1) = -1.
Proof. destruct c; simpl; auto. Qed.

(** Two position literals differ on some axis. *)
Ltac differ :=
  let E := fresh "E" in
  intros E;
  first [ apply (f_equal x) in E; cbn [x] in E; lia
        | apply (f_equal y) in E; cbn [y] in E; lia
        | apply (f_equal z) in E; cbn [z] in E; lia ].

Lemma getPawnMoves_safe (p : Piece) (b : Board) m :
  In m (getPawnMoves p b) -> safeMove p b m.
Proof.
  unfold getPawnMoves, safeMove.
  destruct p as [t c [px py pz] hm]; cbn [position color x y z hasMoved].
  set (direction := if PieceColor_eqb c WHITE then 1 else -1).
  assert (Hdir : direction = 1 \/ direction = -1) by apply pawnDirection_cases.
  clearbody direction.
  rewrite !in_app_iff. intros [Hin|[Hin|[Hin|Hin]]].
  - destruct (isValidPosition (mkPosition px (py + direction) pz) &&
              isEmpty (getPiece b (mkPosition px (py + direction) pz))) eqn:E1;
      [|contradiction].
    apply andb_true_iff in E1 as [Hv He].
    destruct Hin as [<-|Hin].
    + repeat split; [assumption| |now apply isEmpty_free].
      differ.
    + assert (Hd : In m (if isValidPosition (mkPosition px (py + 2 * direction) pz) &&
                            isEmpty (getPiece b (mkPosition px (py + 2 * direction) pz))
                         then [mkPosition px (py + 2 * direction) pz] else [])).
      { destruct hm as [[|]|]; [contradiction|exact Hin|exact Hin]. }
      destruct (isValidPosition (mkPosition px (py + 2 * direction) pz) &&
                isEmpty (getPiece b (mkPosition px (py + 2 * direction) pz))) eqn:E2;
        [|contradiction].
      apply andb_true_iff in E2 as [Hv2 He2].
      destruct Hd as [<-|[]].
      repeat split; [assumption| |now apply isEmpty_free].
      differ.
  - apply filter_In in Hin as [Hin Hok].
    apply andb_true_iff in Hok as [Hv Ho].
    repeat split; [assumption| |now apply isOpponent_free].
    destruct Hin as [<-|[<-|[]]]; differ.
  - destruct (isValidPosition (mkPosition px py (pz + direction)) &&
              isEmpty (getPiece b (mkPosition px py (pz + direction)))) eqn:E1;
      [|contradiction].
    apply andb_true_iff in E1 as [Hv He].
    destruct Hin as [<-|[]].
    repeat split; [assumption| |now apply isEmpty_free].
    differ.
  - apply filter_In in Hin as [Hin Hok].
    apply andb_true_iff in Hok as [Hv Ho].
    repeat split; [assumption| |now apply isOpponent_free].
    destruct Hin as [<-|[<-|[<-|[<-|[]]]]]; differ.
Qed.

Lemma getValidMoves_safe (p : Piece) (b : Board) m :
  In m (getValidMoves p b) -> safeMove p b m.
Proof.
  unfold getValidMoves. destruct (type p).
  - apply getPawnMoves_safe.
  - apply getLinearMoves_safe, rookDirections_ok.
  - apply stepMoves_safe, knightOffsets_nonZero.
  - apply getLinearMoves_safe, bishopDirections_ok.
  - unfold getQueenMoves. rewrite in_app_iff. intros [H|H].
    + revert H. apply getLinearMoves_safe, rookDirections_ok.
    + revert H. apply getLinearMoves_safe, bishopDirections_ok.
  - apply stepMoves_safe, kingOffsets_nonZero.
Qed.

(** ** Relocating a piece *)

Lemma delete_absent (m : Board) k : JsMap.get m k = None -> JsMap.delete m k = m.
Proof.
  induction m as [|[k0 v0] m IH]; simpl; [reflexivity|].
  destruct (String.eqb_spec k0 k) as [->|Hk]; simpl; [discriminate|].
  intros H. now rewrite IH.
Qed.

(** The board after [movePiece] when the origin holds [p]. *)
Lemma movePiece_board (b : Board) (src dst : Position) (p : Piece) :
  getPiece b src = Some p ->
  snd (movePiece b src dst) =
  JsMap.set
    (JsMap.delete (JsMap.delete b (positionToKey src)) (positionToKey dst))
    (positionToKey dst) (relocated p dst).
Proof.
  unfold movePiece, removePiece, getPiece, addPiece. intros Hp. rewrite Hp.
  cbn [relocated position snd].
  destruct (JsMap.get (JsMap.delete b (positionToKey src)) (positionToKey dst))
    as [q|] eqn:Hq; cbn [snd].
  - reflexivity.
  - now rewrite (delete_absent _ _ Hq).
Qed.

(** A legal destination never has the key of the origin square. *)
Lemma destination_key_differs (b : Board) (src dst : Position) (p : Piece) :
  getPiece b src = Some p -> In dst (getValidMoves p b) ->
  positionToKey src <> positionToKey dst.
Proof.
  intros Hp Hin Hk. apply getValidMoves_safe in Hin as (_ & _ & Hfree).
  unfold getPiece in *. rewrite <- Hk, Hp in Hfree. simpl in Hfree.
  now rewrite PieceColor_eqb_refl in Hfree.
Qed.

Lemma movePiece_wf (b : Board) (src dst : Position) :
  wfBoard b -> wfBoard (snd (movePiece b src dst)).
Proof.
  intros Hwf. destruct (getPiece b src) as [p|] eqn:Hp.
  - rewrite (movePiece_board _ _ _ _ Hp).
    now apply JsMapFacts.NoDup_set, JsMapFacts.NoDup_delete, JsMapFacts.NoDup_delete.
  - unfold movePiece, removePiece. unfold getPiece in Hp. now rewrite Hp.
Qed.

(** The entries of the board after an accepted relocation. *)
Lemma movePiece_entries (b : Board) (src dst : Position) (p : Piece) e :
  getPiece b src = Some p ->
  (In e (snd (movePiece b src dst)) <->
   (In e b /\ fst e <> positionToKey src /\ fst e <> positionToKey dst) \/
   e = (positionToKey dst, relocated p dst)).
Proof.
  intros Hp. rewrite (movePiece_board _ _ _ _ Hp).
  rewrite JsMapFacts.In_set_absent.
  - rewrite !JsMapFacts.In_delete. tauto.
  - intros Hin. apply JsMapFacts.In_keys_delete in Hin. tauto.
Qed.

(** ** What [makeMove] does *)

Lemma updateGameState_fields (g : Game) :
  board (updateGameState g) = board g /\
  currentTurn (updateGameState g) = currentTurn g /\
  moves (updateGameState g) = moves g.
Proof. now unfold updateGameState. Qed.

(** Inversion of an accepted call. *)
Lemma makeMove_accepted (g g' : Game) (src dst : Position) :
  makeMove g src dst = (true, g') ->
  state g <> CHECKMATE /\ state g <> STALEMATE /\
  exists p,
    getPiece (board g) src = Some p /\
    color p = currentTurn g /\
    In dst (getValidMoves p (board g)) /\
    g' = updateGameState
           (mkGame (snd (movePiece (board g) src dst))
                   (opposite (currentTurn g))
                   (moves g ++ [mkMove src dst (relocated p dst)
                                       (getPiece (board g) dst)])
                   (state g)).
Proof.
  unfold makeMove.
  destruct (state g) eqn:Hs; cbn [GameState_eqb orb]; try discriminate.
  all: destruct (getPiece (board g) src) as [p|] eqn:Hp; [|discriminate].
  all: destruct (PieceColor_eqb (color p) (currentTurn g)) eqn:Hc;
    cbn [negb]; [|discriminate].
  all: destruct (isValidMove p dst (board g)) eqn:Hm; cbn [negb]; [|discriminate].
  all: intros [= <-]; repeat split; try discriminate.
  all: exists p; repeat split;
    [now apply PieceColor_eqb_eq | now apply isValidMove_In].
Qed.

Lemma makeMove_wf (g g' : Game) (src dst : Position) :
  wfBoard (board g) -> makeMove g src dst = (true, g') -> wfBoard (board g').
Proof.
  intros Hwf H. apply makeMove_accepted in H as (_ & _ & p & _ & _ & _ & ->).
  cbn [updateGameState board]. now apply movePiece_wf.
Qed.

(** An accepted move leaves every other square as it was. *)
Lemma makeMove_other_squares (g g' : Game) (src dst q : Position) :
  makeMove g src dst = (true, g') -> q <> src -> q <> dst ->
  getPiece (board g') q = getPiece (board g) q.
Proof.
  intros H Hs Hd. apply makeMove_accepted in H as (_ & _ & p & Hp & _ & _ & ->).
  cbn [updateGameState board]. rewrite (movePiece_board _ _ _ _ Hp).
  assert (positionToKey dst <> positionToKey q)
    by (intros E; apply positionToKey_inj in E; congruence).
  assert (positionToKey src <> positionToKey q)
    by (intros E; apply positionToKey_inj in E; congruence).
  unfold getPiece.
  now rewrite JsMapFacts.get_set_other, !JsMapFacts.get_delete_other.
Qed.

Lemma NoDup_by_nodup (l : list string) : nodup string_dec l = l -> NoDup l.
Proof. intros <-. apply NoDup_nodup. Qed.

Lemma setupBoard_wf : wfBoard setupBoard.
Proof. apply NoDup_by_nodup. vm_compute. reflexivity. Qed.

Lemma reachable_wf (g : Game) : reachable g -> wfBoard (board g).
Proof.
  induction 1 as [|g g' src dst _ IH Hmove].
  - apply setupBoard_wf.
  - exact (makeMove_wf _ _ _ _ IH Hmove).
Qed.

(** ** Classification of the position *)

Lemma getPiecesByColor_In (b : Board) (c : PieceColor) (p : Piece) :
  In p (getPiecesByColor b c) <-> In p (JsMap.values b) /\ color p = c.
Proof.
  unfold getPiecesByColor. now rewrite filter_In, PieceColor_eqb_eq.
Qed.

Lemma anyReaches_spec (b : Board) (target : Position) (pieces : list Piece) :
  anyReaches b target pieces = true <->
  exists p, In p pieces /\ In target (getValidMoves p b).
Proof.
  induction pieces as [|p rest IH]; simpl.
  - split; [discriminate|]. now intros (? & [] & _).
  - destruct (existsb (fun pos => arePositionsEqual pos target) (getValidMoves p b))
      eqn:E.
    + split; [intros _|reflexivity]. exists p. split; [now left|].
      apply existsb_exists in E as (q & Hq & He).
      apply arePositionsEqual_eq in He. now subst.
    + rewrite IH. split.
      * intros (q & Hq & Hin). exists q. split; [now right|assumption].
      * intros (q & [<-|Hq] & Hin).
        -- exfalso. assert (existsb (fun pos => arePositionsEqual pos target)
                                    (getValidMoves p b) = true) as E'.
           { apply existsb_exists. exists target. split; [assumption|].
             now apply arePositionsEqual_eq. }
           congruence.
        -- now exists q.
Qed.

Lemma anyMobile_spec (b : Board) (pieces : list Piece) :
  anyMobile b pieces = true <->
  exists p, In p pieces /\ getValidMoves p b <> [].
Proof.
  induction pieces as [|p rest IH]; simpl.
  - split; [discriminate|]. now intros (? & [] & _).
  - destruct (getValidMoves p b) as [|m ms] eqn:E.
    + cbn [List.length Z.of_nat Z.ltb Z.compare]. rewrite IH. split.
      * intros (q & Hq & Hne). exists q. split; [now right|assumption].
      * intros (q & [<-|Hq] & Hne); [congruence|now exists q].
    + replace (0 <? Z.of_nat (List.length (m :: ms))) with true
        by (symmetry; apply Z.ltb_lt; simpl; lia).
      split; [intros _|reflexivity]. exists p. split; [now left|]. now rewrite E.
Qed.

Lemma isKingInCheck_spec (b : Board) (c : PieceColor) :
  isKingInCheck b c = true <-> kingAttacked b c.
Proof.
  unfold isKingInCheck, kingAttacked.
  destruct (findKing b c) as [king|].
  - rewrite anyReaches_spec. split.
    + intros (p & Hp & Hin). apply getPiecesByColor_In in Hp as [Hp Hc].
      now exists king, p.
    + intros (king' & p & [= <-] & Hp & Hc & Hin). exists p. split; [|assumption].
      now apply getPiecesByColor_In.
  - split; [discriminate|]. now intros (? & ? & [=] & _).
Qed.

Lemma hasValidMoves_spec (g : Game) (c : PieceColor) :
  hasValidMoves g c = true <-> hasDestination (board g) c.
Proof.
  unfold hasValidMoves, hasDestination. rewrite anyMobile_spec. split.
  - intros (p & Hp & Hne). apply getPiecesByColor_In in Hp as [Hp Hc]. now exists p.
  - intros (p & Hp & Hc & Hne). exists p. split; [|assumption].
    now apply getPiecesByColor_In.
Qed.

Lemma updateGameState_classified (g : Game) :
  classified (board g) (currentTurn g) (state (updateGameState g)).
Proof.
  unfold updateGameState; cbn [state].
  destruct (isKingInCheck (board g) (currentTurn g)) eqn:Hk;
    destruct (hasValidMoves g (currentTurn g)) eqn:Hm.
  - apply classified_check; [now apply isKingInCheck_spec|now apply hasValidMoves_spec].
  - apply classified_checkmate; [now apply isKingInCheck_spec|].
    rewrite <- hasValidMoves_spec. congruence.
  - apply classified_active; [|now apply hasValidMoves_spec].
    rewrite <- isKingInCheck_spec. congruence.
  - apply classified_stalemate.
    + rewrite <- isKingInCheck_spec. congruence.
    + rewrite <- hasValidMoves_spec. congruence.
Qed.

(** The classification is a function of the board and the side to move. *)
Lemma classified_functional (b : Board) (c : PieceColor) (s1 s2 : GameState) :
  classified b c s1 -> classified b c s2 -> s1 = s2.
Proof. intros H1 H2; inversion H1; inversion H2; subst; tauto. Qed.

(** ** Kings *)

Lemma hasKing_entry (b : Board) (c : PieceColor) :
  hasKing b c <->
  exists key k, In (key, k) b /\ type k = KING /\ color k = c.
Proof.
  unfold hasKing, findKing. split.
  - destruct (find _ _) as [k|] eqn:E; [intros _|congruence].
    apply find_some in E as [Hin Hk].
    apply PieceType_eqb_eq in Hk.
    apply getPiecesByColor_In in Hin as [Hin Hc].
    apply in_map_iff in Hin as ([key k'] & Heq & Hin). simpl in Heq. subst k'.
    now exists key, k.
  - intros (key & k & Hin & Hk & Hc) E.
    assert (Hf : PieceType_eqb (type k) KING = false).
    { apply (find_none _ _ E k). apply getPiecesByColor_In. split; [|assumption].
      change k with (snd (key, k)). now apply in_map. }
    rewrite Hk in Hf. discriminate.
Qed.

(** An accepted move keeps every king that does not stand on the
    destination square. *)
Lemma king_survives (g g' : Game) (src dst : Position) (c : PieceColor) :
  wfBoard (board g) ->
  makeMove g src dst = (true, g') ->
  hasKing (board g) c ->
  (forall k, getPiece (board g) dst = Some k -> type k = KING -> color k <> c) ->
  hasKing (board g') c.
Proof.
  intros Hwf Hmove Hking Hdst.
  apply makeMove_accepted in Hmove as (_ & _ & p & Hp & Hc & Hin & ->).
  cbn [updateGameState board].
  apply hasKing_entry in Hking as (key & k & Hentry & Hk & Hkc).
  apply hasKing_entry.
  destruct (string_dec key (positionToKey src)) as [->|Hsrc].
  - exists (positionToKey dst), (relocated p dst).
    apply (JsMapFacts.In_get _ _ _ Hwf) in Hentry.
    unfold getPiece in Hp. assert (k = p) by congruence. subst k.
    split; [|now split].
    apply (movePiece_entries _ _ _ _ _ Hp). now right.
  - exists key, k. split; [|now split].
    apply (movePiece_entries _ _ _ _ _ Hp). left. cbn [fst].
    repeat split; try assumption.
    intros ->. apply (JsMapFacts.In_get _ _ _ Hwf) in Hentry.
    now apply (Hdst k).
Qed.

Lemma playMoves_reachable (ms : list (Position * Position)) :
  forall g g', reachable g -> playMoves g ms = Some g' -> reachable g'.
Proof.
  induction ms as [|[src dst] ms IH]; intros g g' Hg; simpl.
  - now intros [= <-].
  - destruct (makeMove g src dst) as [[|] g1] eqn:E; [|discriminate].
    apply IH. exact (reachable_move _ _ _ _ Hg E).
Qed.

(** * The claims *)

(** C1 (as amended).  In every game state reached from [createGame] through
    accepted calls of [makeMove], each colour's king is on the board unless
    the move history holds a move of the other colour whose captured piece is
    that king: a king leaves the board only by being captured. *)
Theorem kings_present_or_captured (g : Game) (c : PieceColor) :
  reachable g ->
  hasKing (board g) c \/
  exists m k,
    In m (moves g) /\ capturedPiece m = Some k /\
    type k = KING /\ color k = c /\ color (piece m) = opposite c.
Proof.
  intros Hreach. induction Hreach as [|g g' src dst Hreach IH Hmove].
  - left. destruct c; vm_compute; discriminate.
  - pose proof (reachable_wf _ Hreach) as Hwf.
    pose proof (makeMove_accepted _ _ _ _ Hmove) as (_ & _ & p & Hp & Hc & Hin & Hg').
    destruct IH as [Hking|(m & k & Hm & Hcap & Hk & Hkc & Hmc)].
    + destruct (getPiece (board g) dst) as [k|] eqn:Hdst.
      * destruct (PieceType_eqb (type k) KING) eqn:Hk;
          [destruct (PieceColor_eqb (color k) c) eqn:Hkc|].
        -- right. apply PieceType_eqb_eq in Hk. apply PieceColor_eqb_eq in Hkc.
           exists (mkMove src dst (relocated p dst) (Some k)), k.
           subst g'. cbn [updateGameState moves capturedPiece piece relocated color].
           repeat split; try assumption.
           ++ rewrite in_app_iff. right. now left.
           ++ apply getValidMoves_safe in Hin as (_ & _ & Hfree).
              rewrite Hdst in Hfree. simpl in Hfree.
              apply negb_true_iff, PieceColor_eqb_neq in Hfree.
              rewrite Hkc in Hfree. clear - Hfree.
              destruct (color p), c; try reflexivity; now elim Hfree.
        -- left. apply (king_survives _ _ _ _ _ Hwf Hmove Hking).
           intros k' Hk' _. rewrite Hdst in Hk'. injection Hk' as <-.
           now apply PieceColor_eqb_neq.
        -- left. apply (king_survives _ _ _ _ _ Hwf Hmove Hking).
           intros k' Hk' Ht. rewrite Hdst in Hk'. injection Hk' as <-.
           rewrite Ht in Hk. discriminate.
      * left. apply (king_survives _ _ _ _ _ Hwf Hmove Hking).
        intros k Hk. rewrite Hdst in Hk. discriminate.
    + right. exists m, k. subst g'. cbn [updateGameState moves].
      rewrite in_app_iff. tauto.
Qed.

Lemma kings_present_or_captured_witness :
  reachable kinglessGame /\
  (hasKing (board kinglessGame) BLACK \/
   exists m k,
     In m (moves kinglessGame) /\ capturedPiece m = Some k /\
     type k = KING /\ color k = BLACK /\ color (piece m) = opposite BLACK).
Proof.
  assert (H : reachable kinglessGame).
  { apply (playMoves_reachable kingHunt createGame); [constructor|].
    vm_compute. reflexivity. }
  split; [exact H|]. apply (kings_present_or_captured kinglessGame BLACK H).
Defined.

(** C1 (as stated) fails: after the five accepted moves of [kingHunt] the
    black king is gone from the board. *)
Lemma king_captured_counterexample :
  reachable kinglessGame /\ findKing (board kinglessGame) BLACK = None.
Proof.
  split.
  - apply (playMoves_reachable kingHunt createGame); [constructor|].
    vm_compute. reflexivity.
  - vm_compute. reflexivity.
Qed.

(** C2 (as amended).  When [makeMove] returns true, the history is one move
    longer, the turn has passed to the other colour, the origin square is
    empty, and the destination holds the mover at its new position, with
    [hasMoved = true] when the piece carried a [hasMoved] property and still
    without the property otherwise. *)
Theorem makeMove_accepted_updates (g g' : Game) (src dst : Position) :
  makeMove g src dst = (true, g') ->
  List.length (moves g') = S (List.length (moves g)) /\
  currentTurn g' = opposite (currentTurn g) /\
  getPiece (board g') src = None /\
  exists p,
    getPiece (board g) src = Some p /\
    getPiece (board g') dst =
      Some (mkPiece (type p) (color p) dst
              (match hasMoved p with Some _ => Some true | None => None end)).
Proof.
  intros Hmove.
  apply makeMove_accepted in Hmove as (_ & _ & p & Hp & Hc & Hin & ->).
  cbn [updateGameState board moves currentTurn].
  pose proof (destination_key_differs _ _ _ _ Hp Hin) as Hkeys.
  rewrite (movePiece_board _ _ _ _ Hp). unfold getPiece.
  repeat split.
  - rewrite length_app. simpl. lia.
  - rewrite JsMapFacts.get_set_other by congruence.
    rewrite JsMapFacts.get_delete_other by congruence.
    apply JsMapFacts.get_delete_same.
  - exists p. split; [exact Hp|]. apply JsMapFacts.get_set_same.
Qed.

Lemma makeMove_accepted_updates_witness :
  makeMove createGame (mkPosition 2 1 1) (mkPosition 3 3 1) = (true, afterKnightMove) /\
  (List.length (moves afterKnightMove) = S (List.length (moves createGame)) /\
   currentTurn afterKnightMove = opposite (currentTurn createGame) /\
   getPiece (board afterKnightMove) (mkPosition 2 1 1) = None /\
   exists p,
     getPiece (board createGame) (mkPosition 2 1 1) = Some p /\
     getPiece (board afterKnightMove) (mkPosition 3 3 1) =
       Some (mkPiece (type p) (color p) (mkPosition 3 3 1)
               (match hasMoved p with Some _ => Some true | None => None end))).
Proof.
  assert (H : makeMove createGame (mkPosition 2 1 1) (mkPosition 3 3 1)
              = (true, afterKnightMove)) by (vm_compute; reflexivity).
  split; [exact H|].
  exact (makeMove_accepted_updates _ _ _ _ H).
Defined.

(** C2 (as stated) fails: the knight moved from (2,1,1) to (3,3,1) in the
    initial game has no [hasMoved] property afterwards. *)
Lemma knight_move_counterexample :
  makeMove createGame (mkPosition 2 1 1) (mkPosition 3 3 1) = (true, afterKnightMove) /\
  getPiece (board afterKnightMove) (mkPosition 3 3 1) =
    Some (mkPiece KNIGHT WHITE (mkPosition 3 3 1) None) /\
  ~ (exists q, getPiece (board afterKnightMove) (mkPosition 3 3 1) = Some q /\
               hasMoved q = Some true).
Proof.
  assert (H : getPiece (board afterKnightMove) (mkPosition 3 3 1) =
              Some (mkPiece KNIGHT WHITE (mkPosition 3 3 1) None))
    by (vm_compute; reflexivity).
  split; [|split].
  - vm_compute. reflexivity.
  - exact H.
  - intros (q & Hq & Hm). rewrite H in Hq. injection Hq as <-. discriminate.
Qed.

(** The king that [findKing] returns is the first king entry of the
    colour. *)
Lemma findKing_sideKing (b : Board) (c : PieceColor) (k : Piece) :
  findKing b c = Some k <-> sideKing b c k.
Proof.
  unfold findKing, getPiecesByColor, JsMap.values, sideKing.
  induction b as [|[key p] b IH]; cbn [map filter snd].
  - split; [discriminate|].
    intros (before & key & after & E & _). now destruct before.
  - assert (Hdec : (type p = KING /\ color p = c) \/ ~ (type p = KING /\ color p = c)).
    { destruct (PieceType_eqb (type p) KING) eqn:Ht;
        destruct (PieceColor_eqb (color p) c) eqn:Hc.
      - left. split; [now apply PieceType_eqb_eq|now apply PieceColor_eqb_eq].
      - right. intros [_ H]. apply PieceColor_eqb_eq in H. congruence.
      - right. intros [H _]. apply PieceType_eqb_eq in H. congruence.
      - right. intros [H _]. apply PieceType_eqb_eq in H. congruence. }
    destruct Hdec as [[Ht Hc]|Hno].
    + apply PieceColor_eqb_eq in Hc as Hc'. apply PieceType_eqb_eq in Ht as Ht'.
      rewrite Hc'. cbn [find]. rewrite Ht'. split.
      * intros [= <-]. exists [], key, b. repeat split; auto.
      * intros ([|e before] & key' & after & E & _ & _ & Hfirst).
        -- now injection E as _ <- _.
        -- injection E as <- _. exfalso. apply (Hfirst (key, p)); [now left|].
           now split.
    + assert (Hskip :
        find (fun q => PieceType_eqb (type q) KING)
             (if PieceColor_eqb (color p) c
              then p :: filter (fun q => PieceColor_eqb (color q) c) (map snd b)
              else filter (fun q => PieceColor_eqb (color q) c) (map snd b))
        = find (fun q => PieceType_eqb (type q) KING)
               (filter (fun q => PieceColor_eqb (color q) c) (map snd b))).
      { destruct (PieceColor_eqb (color p) c) eqn:Hc; [|reflexivity].
        cbn [find]. destruct (PieceType_eqb (type p) KING) eqn:Ht; [|reflexivity].
        exfalso. apply Hno.
        split; [now apply PieceType_eqb_eq|now apply PieceColor_eqb_eq]. }
      rewrite Hskip, IH. split.
      * intros (before & key' & after & -> & Hk & Hkc & Hfirst).
        exists ((key, p) :: before), key', after. repeat split; auto.
        intros e [<-|He]; [exact Hno|now apply Hfirst].
      * intros ([|e before] & key' & after & E & Hk & Hkc & Hfirst).
        -- injection E as _ <- _. exfalso. now apply Hno.
        -- injection E as <- ->. exists before, key', after. repeat split; auto.
           intros e He. apply Hfirst. now right.
Qed.

Lemma findKing_noKing (b : Board) (c : PieceColor) :
  findKing b c = None <-> noKingOnBoard b c.
Proof.
  unfold noKingOnBoard. split.
  - intros E key p Hin [Ht Hc].
    assert (H : hasKing b c) by (apply hasKing_entry; now exists key, p).
    now apply H.
  - intros Hno. destruct (findKing b c) as [k|] eqn:E; [exfalso|reflexivity].
    assert (H : hasKing b c) by (unfold hasKing; congruence).
    apply hasKing_entry in H as (key & p & Hin & Ht & Hc).
    now apply (Hno key p Hin).
Qed.

Lemma values_entry (b : Board) (p : Piece) :
  In p (JsMap.values b) <-> exists key, In (key, p) b.
Proof.
  unfold JsMap.values. rewrite in_map_iff. split.
  - intros ([key p'] & E & Hin). simpl in E. subst p'. now exists key.
  - intros (key & Hin). now exists (key, p).
Qed.

Lemma kingUnderAttack_spec (b : Board) (c : PieceColor) :
  isKingInCheck b c = true <-> kingUnderAttack b c.
Proof.
  rewrite isKingInCheck_spec. unfold kingAttacked, kingUnderAttack. split.
  - intros (king & attacker & Hk & Hin & Hc & Hm).
    apply findKing_sideKing in Hk. apply values_entry in Hin as (key & Hin).
    exists king, key, attacker. repeat split; try assumption.
    rewrite Hc. apply opposite_neq.
  - intros (king & key & attacker & Hk & Hin & Hc & Hm).
    apply findKing_sideKing in Hk. exists king, attacker.
    repeat split; try assumption.
    + apply values_entry. now exists key.
    + destruct (color attacker), c; try reflexivity; now elim Hc.
Qed.

Lemma sideCanMove_spec (g : Game) (c : PieceColor) :
  hasValidMoves g c = true <-> sideCanMove (board g) c.
Proof.
  rewrite hasValidMoves_spec. unfold hasDestination, sideCanMove. split.
  - intros (p & Hin & Hc & Hm). apply values_entry in Hin as (key & Hin).
    now exists key, p.
  - intros (key & p & Hin & Hc & Hm). exists p. repeat split; try assumption.
    apply values_entry. now exists key.
Qed.

Lemma updateGameState_positionClass (g : Game) :
  positionClass (board g) (currentTurn g) (state (updateGameState g)).
Proof.
  unfold updateGameState; cbn [state].
  destruct (isKingInCheck (board g) (currentTurn g)) eqn:Hk;
    destruct (hasValidMoves g (currentTurn g)) eqn:Hm.
  - apply positionClass_check;
      [now apply kingUnderAttack_spec|now apply sideCanMove_spec].
  - apply positionClass_checkmate; [now apply kingUnderAttack_spec|].
    rewrite <- sideCanMove_spec. congruence.
  - apply positionClass_active; [|now apply sideCanMove_spec].
    rewrite <- kingUnderAttack_spec. congruence.
  - apply positionClass_stalemate.
    + rewrite <- kingUnderAttack_spec. congruence.
    + rewrite <- sideCanMove_spec. congruence.
Qed.

(** C4.  After every call of [makeMove] that returns true, the state of the
    game is the classification of the new board and the new side to move,
    stated on the entries of the board: check when the side's king (the king
    entry of its colour, the first one in board order) stands on a legal
    destination of a piece of the other colour and some piece of the side has
    a destination, checkmate when attacked with no destination, active when
    not attacked with a destination, stalemate when not attacked with no
    destination; when no entry of the board is a king of the side, the side
    is not in check. *)
Theorem makeMove_state_classified (g g' : Game) (src dst : Position) :
  makeMove g src dst = (true, g') ->
  currentTurn g' = opposite (currentTurn g) /\
  positionClass (board g') (currentTurn g') (state g') /\
  (noKingOnBoard (board g') (currentTurn g') ->
   state g' = ACTIVE \/ state g' = STALEMATE).
Proof.
  intros Hmove.
  apply makeMove_accepted in Hmove as (_ & _ & p & _ & _ & _ & ->).
  set (g1 := mkGame _ _ _ _).
  destruct (updateGameState_fields g1) as (Hb & Ht & _).
  rewrite Hb, Ht. split; [reflexivity|].
  pose proof (updateGameState_positionClass g1) as Hcl.
  split; [exact Hcl|].
  intros Hnone.
  assert (Hsafe : ~ kingUnderAttack (board g1) (currentTurn g1)).
  { intros (king & _ & _ & (before & key & after & E & Hk & Hc & _) & _).
    apply (Hnone key king); [|now split].
    rewrite E. apply in_or_app. right. now left. }
  inversion Hcl; auto; contradiction.
Qed.

Lemma makeMove_state_classified_witness :
  makeMove createGame (mkPosition 1 2 1) (mkPosition 1 3 1) = (true, afterPawnStep) /\
  (currentTurn afterPawnStep = opposite (currentTurn createGame) /\
   positionClass (board afterPawnStep) (currentTurn afterPawnStep)
                 (state afterPawnStep) /\
   (noKingOnBoard (board afterPawnStep) (currentTurn afterPawnStep) ->
    state afterPawnStep = ACTIVE \/ state afterPawnStep = STALEMATE)).
Proof.
  assert (H : makeMove createGame (mkPosition 1 2 1) (mkPosition 1 3 1)
              = (true, afterPawnStep)) by (vm_compute; reflexivity).
  split; [exact H|].
  exact (makeMove_state_classified _ _ _ _ H).
Defined.

(** C5.  In a game whose state is checkmate or stalemate, [makeMove] returns
    false for every pair of coordinates and returns the game as it was
    (board, turn, history and state). *)
Theorem makeMove_terminal_rejects (g : Game) (src dst : Position) :
  state g = CHECKMATE \/ state g = STALEMATE ->
  makeMove g src dst = (false, g).
Proof.
  intros [H|H]; unfold makeMove; rewrite H; reflexivity.
Qed.

Lemma makeMove_terminal_rejects_witness :
  (state stalemateGame = CHECKMATE \/ state stalemateGame = STALEMATE) /\
  makeMove stalemateGame (mkPosition 1 8 8) (mkPosition 1 8 7)
  = (false, stalemateGame).
Proof.
  assert (H : state stalemateGame = CHECKMATE \/ state stalemateGame = STALEMATE)
    by (right; vm_compute; reflexivity).
  split; [exact H|].
  exact (makeMove_terminal_rejects stalemateGame _ _ H).
Defined.

(** C6.  When the origin square is empty, or its piece is not of the colour
    to move, or the destination is not among that piece's legal
    destinations, [makeMove] returns false and the game is as it was. *)
Theorem makeMove_invalid_rejects (g : Game) (src dst : Position) :
  getPiece (board g) src = None \/
  (exists p, getPiece (board g) src = Some p /\
             (color p <> currentTurn g \/
              ~ In dst (getValidMoves p (board g)))) ->
  makeMove g src dst = (false, g).
Proof.
  intros H. unfold makeMove.
  destruct (GameState_eqb (state g) CHECKMATE || GameState_eqb (state g) STALEMATE);
    [reflexivity|].
  destruct H as [H|(p & H & Hbad)]; rewrite H; [reflexivity|].
  destruct (PieceColor_eqb (color p) (currentTurn g)) eqn:Hc; cbn [negb];
    [|reflexivity].
  destruct (isValidMove p dst (board g)) eqn:Hm; cbn [negb]; [|reflexivity].
  apply PieceColor_eqb_eq in Hc. apply isValidMove_In in Hm. tauto.
Qed.

Lemma makeMove_invalid_rejects_witness :
  (getPiece (board createGame) (mkPosition 1 7 1) = None \/
   (exists p, getPiece (board createGame) (mkPosition 1 7 1) = Some p /\
              (color p <> currentTurn createGame \/
               ~ In (mkPosition 1 5 1) (getValidMoves p (board createGame))))) /\
  makeMove createGame (mkPosition 1 7 1) (mkPosition 1 5 1) = (false, createGame).
Proof.
  assert (H : getPiece (board createGame) (mkPosition 1 7 1) = None \/
              (exists p, getPiece (board createGame) (mkPosition 1 7 1) = Some p /\
                (color p <> currentTurn createGame \/
                 ~ In (mkPosition 1 5 1) (getValidMoves p (board createGame))))).
  { right. exists (mkPiece PAWN BLACK (mkPosition 1 7 1) (Some false)).
    split; [vm_compute; reflexivity|]. left. simpl. discriminate. }
  split; [exact H|].
  exact (makeMove_invalid_rejects createGame _ _ H).
Defined.

(** C10.  For a piece standing on the board and any board, every coordinate
    returned by [getValidMoves] has its three components in 1..8, differs
    from the piece's own position, and is not occupied by a piece of the
    piece's colour. *)
Theorem getValidMoves_sound (p : Piece) (b : Board) (m : Position) :
  isValidPosition (position p) = true ->
  In m (getValidMoves p b) ->
  (1 <= x m <= 8 /\ 1 <= y m <= 8 /\ 1 <= z m <= 8) /\
  m <> position p /\
  (forall q, getPiece b m = Some q -> color q <> color p).
Proof.
  intros _ Hin. apply getValidMoves_safe in Hin as (Hv & Hne & Hfree).
  split; [now apply isValidPosition_bounds|]. split; [assumption|].
  now apply isFreeOrOpponent_spec.
Qed.

Lemma getValidMoves_sound_witness :
  (1 <= 4 <= 8 /\ 1 <= 1 <= 8 /\ 1 <= 2 <= 8) /\
  mkPosition 4 1 2 <> mkPosition 4 1 1 /\
  (forall q, getPiece setupBoard (mkPosition 4 1 2) = Some q -> color q <> WHITE).
Proof.
  apply (getValidMoves_sound
           (mkPiece QUEEN WHITE (mkPosition 4 1 1) None) setupBoard
           (mkPosition 4 1 2)).
  - reflexivity.
  - vm_compute. left. reflexivity.
Defined.

(** ** Pawns *)

(** The double step is in the list exactly when the pawn's [hasMoved] is not
    true and both the single- and the double-step squares are on the board
    and empty. *)
Lemma doubleStep_offered (p : Piece) (b : Board) :
  In (doubleStep p) (getPawnMoves p b) <->
  hasMoved p <> Some true /\
  isValidPosition (singleStep p) = true /\ getPiece b (singleStep p) = None /\
  isValidPosition (doubleStep p) = true /\ getPiece b (doubleStep p) = None.
Proof.
  unfold getPawnMoves, doubleStep, singleStep, pawnDirection.
  destruct p as [t c [px py pz] hm]; cbn [position color x y z hasMoved].
  set (direction := if PieceColor_eqb c WHITE then 1 else -1).
  assert (Hdir : direction = 1 \/ direction = -1) by apply pawnDirection_cases.
  clearbody direction.
  set (single := mkPosition px (py + direction) pz).
  set (double := mkPosition px (py + 2 * direction) pz).
  assert (Hsd : single <> double) by (subst single double; differ).
  rewrite !in_app_iff. split.
  - intros [Hin|[Hin|[Hin|Hin]]].
    + destruct (isValidPosition single) eqn:Hv1; cbn [andb] in Hin; [|contradiction].
      destruct (getPiece b single) eqn:He1; cbn [isEmpty] in Hin; [contradiction|].
      destruct Hin as [Hin|Hin]; [contradiction|].
      assert (Hm : hm <> Some true) by (destruct hm as [[|]|]; [contradiction|discriminate..]).
      assert (Hd : In double (if isValidPosition double && isEmpty (getPiece b double)
                              then [double] else []))
        by (destruct hm as [[|]|]; [contradiction|exact Hin..]).
      destruct (isValidPosition double) eqn:Hv2; cbn [andb] in Hd; [|contradiction].
      destruct (getPiece b double) eqn:He2; cbn [isEmpty] in Hd; [contradiction|].
      auto.
    + exfalso. apply filter_In in Hin as [Hin _].
      destruct Hin as [E|[E|[]]]; revert E; subst double; differ.
    + exfalso.
      destruct (isValidPosition (mkPosition px py (pz + direction)) &&
                isEmpty (getPiece b (mkPosition px py (pz + direction))));
        [|contradiction].
      destruct Hin as [E|[]]; revert E; subst double; differ.
    + exfalso. apply filter_In in Hin as [Hin _].
      destruct Hin as [E|[E|[E|[E|[]]]]]; revert E; subst double; differ.
  - intros (Hm & Hv1 & He1 & Hv2 & He2). left.
    rewrite Hv1, He1. cbn [andb isEmpty]. right.
    rewrite Hv2, He2. cbn [andb isEmpty].
    destruct hm as [[|]|]; [congruence|now left..].
Qed.

(** C7.  In the initial board the white pawn of (1,2,1) may go to (1,3,1),
    (1,4,1) and (1,2,2).  For any pawn the double step is offered only while
    [hasMoved] is not true and the single- and double-step squares are both
    empty.  Once that pawn has made an accepted move, it carries
    [hasMoved = true] and its destinations from the new square hold no
    two-step advance along y, on any board. *)
Theorem pawn_mobility :
  (exists pawn,
     getPiece setupBoard (mkPosition 1 2 1) = Some pawn /\
     type pawn = PAWN /\ color pawn = WHITE /\ hasMoved pawn = Some false /\
     In (mkPosition 1 3 1) (getValidMoves pawn setupBoard) /\
     In (mkPosition 1 4 1) (getValidMoves pawn setupBoard) /\
     In (mkPosition 1 2 2) (getValidMoves pawn setupBoard)) /\
  (forall p b,
     type p = PAWN -> In (doubleStep p) (getValidMoves p b) ->
     hasMoved p <> Some true /\
     getPiece b (singleStep p) = None /\ getPiece b (doubleStep p) = None) /\
  (forall dst g',
     makeMove createGame (mkPosition 1 2 1) dst = (true, g') ->
     exists pawn',
       getPiece (board g') dst = Some pawn' /\
       type pawn' = PAWN /\ color pawn' = WHITE /\ position pawn' = dst /\
       hasMoved pawn' = Some true /\
       forall b, ~ In (doubleStep pawn') (getValidMoves pawn' b)).
Proof.
  split; [|split].
  - exists (mkPiece PAWN WHITE (mkPosition 1 2 1) (Some false)).
    split; [vm_compute; reflexivity|].
    repeat split; vm_compute; tauto.
  - intros p b Ht Hin. unfold getValidMoves in Hin. rewrite Ht in Hin.
    apply doubleStep_offered in Hin. tauto.
  - intros dst g' Hmove.
    apply makeMove_accepted in Hmove as (_ & _ & p & Hp & _ & _ & ->).
    cbn [updateGameState board].
    rewrite (movePiece_board _ _ _ _ Hp).
    assert (Hpawn : p = mkPiece PAWN WHITE (mkPosition 1 2 1) (Some false)).
    { assert (H : getPiece (board createGame) (mkPosition 1 2 1) =
                  Some (mkPiece PAWN WHITE (mkPosition 1 2 1) (Some false)))
        by (vm_compute; reflexivity).
      congruence. }
    subst p. exists (relocated (mkPiece PAWN WHITE (mkPosition 1 2 1) (Some false)) dst).
    split; [apply JsMapFacts.get_set_same|].
    repeat split.
    intros b Hin. unfold getValidMoves in Hin. cbn [relocated type] in Hin.
    apply doubleStep_offered in Hin as (Hm & _). now apply Hm.
Qed.

Lemma pawn_mobility_witness :
  makeMove createGame (mkPosition 1 2 1) (mkPosition 1 3 1) = (true, afterPawnStep) /\
  exists pawn',
    getPiece (board afterPawnStep) (mkPosition 1 3 1) = Some pawn' /\
    type pawn' = PAWN /\ color pawn' = WHITE /\
    position pawn' = mkPosition 1 3 1 /\
    hasMoved pawn' = Some true /\
    forall b, ~ In (doubleStep pawn') (getValidMoves pawn' b).
Proof.
  assert (H : makeMove createGame (mkPosition 1 2 1) (mkPosition 1 3 1)
              = (true, afterPawnStep)) by (vm_compute; reflexivity).
  split; [exact H|].
  exact (proj2 (proj2 pawn_mobility) _ _ H).
Defined.

(** ** Rook rays *)


Lemma ray_within_board (p d : Position) (k : Z) :
  isDirection d -> 1 <= k ->
  isValidPosition (rayAt p d 1) = true -> isValidPosition (rayAt p d k) = true ->
  k <= 8.
Proof.
  intros (Hx & Hy & Hz & Hnz) Hk H1 Hn.
  apply isValidPosition_bounds in H1. apply isValidPosition_bounds in Hn.
  unfold rayAt in H1, Hn. cbn [x y z] in H1, Hn.
  assert (Cx : x d = -1 \/ x d = 0 \/ x d = 1) by lia.
  assert (Cy : y d = -1 \/ y d = 0 \/ y d = 1) by lia.
  assert (Cz : z d = -1 \/ z d = 0 \/ z d = 1) by lia.
  destruct Cx as [Cx|[Cx|Cx]], Cy as [Cy|[Cy|Cy]], Cz as [Cz|[Cz|Cz]];
    rewrite Cx, Cy, Cz in *; lia.
Qed.




(** ** The initial layout *)

(** C3 (the code at its only input).  [setupBoard] puts White on ranks
    y = 1 (pieces) and y = 2 (pawns) and Black on y = 8 and y = 7, and every
    piece of both colours on layer z = 1, whatever layer is passed to
    [setupBaseLayer]: the black king is on (5,8,1) and (5,8,8) is empty,
    although [setupBoard] passes 8 as the layer of Black. *)
Theorem setupBoard_single_layer :
  Forall (fun e => y (position (snd e)) = expectedRank (snd e)) setupBoard /\
  Forall (fun e => z (position (snd e)) = 1) setupBoard /\
  getPiece setupBoard (mkPosition 5 8 1)
    = Some (mkPiece KING BLACK (mkPosition 5 8 1) (Some false)) /\
  getPiece setupBoard (mkPosition 5 8 8) = None /\
  (forall zWhite zBlack,
     setupBaseLayer (setupBaseLayer createEmptyBoard zWhite WHITE) zBlack BLACK
     = setupBoard).
Proof.
  split; [|split; [|split; [|split]]];
    try (vm_compute; reflexivity); try (intros zWhite zBlack; reflexivity).
  - let l := eval vm_compute in setupBoard in change setupBoard with l.
    repeat (apply Forall_cons; [reflexivity|]). apply Forall_nil.
  - let l := eval vm_compute in setupBoard in change setupBoard with l.
    repeat (apply Forall_cons; [reflexivity|]). apply Forall_nil.
Qed.

(** ** The notation codec *)

Lemma notationToPosition_short (s : string) :
  (String.length s < 3)%nat -> notationToPosition s = None.
Proof.
  intros H. unfold notationToPosition.
  replace (Z.of_nat (String.length s) <? 3) with true; [reflexivity|].
  symmetry. apply Z.ltb_lt. lia.
Qed.

(** What a successful decoding says about the string. *)
Lemma notationToPosition_Some (s : string) (p : Position) :
  notationToPosition s = Some p ->
  exists c0 c1 rest,
    s = String c0 (String c1 rest) /\ rest <> EmptyString /\
    x p = upperCharCode c0 - charCode "A" + 1 /\
    parseInt (String c1 EmptyString) = Some (y p) /\
    parseInt rest = Some (z p) /\
    isValidPosition p = true.
Proof.
  unfold notationToPosition.
  destruct (Z.of_nat (String.length s) <? 3) eqn:Hlen; [discriminate|].
  destruct s as [|c0 [|c1 rest]]; try discriminate.
  destruct (parseInt (String c1 EmptyString)) as [yv|] eqn:Hy; [|discriminate].
  destruct (parseInt rest) as [zv|] eqn:Hz; [|discriminate].
  destruct ((upperCharCode c0 - charCode "A" + 1 <? 1) ||
            (upperCharCode c0 - charCode "A" + 1 >? 8) ||
            (yv <? 1) || (yv >? 8) || (zv <? 1) || (zv >? 8)) eqn:Hr;
    [discriminate|].
  intros [= <-]. exists c0, c1, rest. cbn [x y z].
  repeat split; try reflexivity; try assumption.
  - intros ->. simpl in Hlen. discriminate.
  - apply isValidPosition_bounds. cbn [x y z].
    rewrite !orb_false_iff in Hr.
    destruct Hr as (((((H1 & H2) & H3) & H4) & H5) & H6).
    apply Z.ltb_ge in H1, H3, H5.
    rewrite Z.gtb_ltb in H2, H4, H6. apply Z.ltb_ge in H2, H4, H6. lia.
Qed.

Lemma notation_roundtrip (p : Position) :
  isValidPosition p = true -> notationToPosition (positionToNotation p) = Some p.
Proof.
  intros H. apply isValidPosition_bounds in H.
  destruct p as [a b c]; cbn [x y z] in H.
  assert (Ha : a = 1 \/ a = 2 \/ a = 3 \/ a = 4 \/ a = 5 \/ a = 6 \/ a = 7 \/ a = 8) by lia.
  assert (Hb : b = 1 \/ b = 2 \/ b = 3 \/ b = 4 \/ b = 5 \/ b = 6 \/ b = 7 \/ b = 8) by lia.
  assert (Hc : c = 1 \/ c = 2 \/ c = 3 \/ c = 4 \/ c = 5 \/ c = 6 \/ c = 7 \/ c = 8) by lia.
  clear H.
  repeat (destruct Ha as [->|Ha]); subst;
    repeat (destruct Hb as [->|Hb]); subst;
    repeat (destruct Hc as [->|Hc]); subst; reflexivity.
Qed.

(** C9.  Decoding the notation of a position with all axes in 1..8 gives the
    position back, (1,1,1) is written [A11], a string of fewer than three
    characters decodes to nothing, and so does every string whose decoded
    x, y or z is outside 1..8 (or is not a number). *)
Theorem notation_codec :
  (forall p, isValidPosition p = true ->
             notationToPosition (positionToNotation p) = Some p) /\
  positionToNotation (mkPosition 1 1 1) = "A11" /\
  (forall s, (String.length s < 3)%nat -> notationToPosition s = None) /\
  (forall c0 c1 rest,
     let xv := upperCharCode c0 - charCode "A" + 1 in
     (~ 1 <= xv <= 8 \/
      (forall yv, parseInt (String c1 EmptyString) = Some yv -> ~ 1 <= yv <= 8) \/
      (forall zv, parseInt rest = Some zv -> ~ 1 <= zv <= 8)) ->
     notationToPosition (String c0 (String c1 rest)) = None) /\
  (forall s p, notationToPosition s = Some p -> isValidPosition p = true).
Proof.
  split; [exact notation_roundtrip|].
  split; [reflexivity|].
  split; [exact notationToPosition_short|].
  split.
  - intros c0 c1 rest xv Hout.
    destruct (notationToPosition (String c0 (String c1 rest))) as [p|] eqn:E;
      [exfalso|reflexivity].
    apply notationToPosition_Some in E
      as (c0' & c1' & rest' & [= <- <- <-] & _ & Hx & Hy & Hz & Hv).
    apply isValidPosition_bounds in Hv.
    destruct Hout as [Hout|[Hout|Hout]].
    + subst xv. rewrite <- Hx in Hout. tauto.
    + apply (Hout _ Hy). tauto.
    + apply (Hout _ Hz). tauto.
  - intros s p E.
    now apply notationToPosition_Some in E as (_ & _ & _ & _ & _ & _ & _ & _ & Hv).
Qed.

Lemma notation_codec_witness :
  notationToPosition (positionToNotation (mkPosition 8 3 5)) = Some (mkPosition 8 3 5) /\
  notationToPosition "A1" = None /\
  notationToPosition "A19" = None.
Proof.
  destruct notation_codec as (Hround & _ & Hshort & Hrange & _).
  split; [apply Hround; reflexivity|].
  split; [apply Hshort; simpl; lia|].
  apply Hrange. right. right. intros zv [= <-]. lia.
Defined.

(** * Further properties of the engine *)

(** ** Board primitives *)

Lemma length_set (m : Board) k v :
  List.length (JsMap.set m k v) =
  if isEmpty (JsMap.get m k) then S (List.length m) else List.length m.
Proof.
  induction m as [|[k0 v0] m IH]; simpl; [reflexivity|].
  destruct (String.eqb k0 k); simpl; [reflexivity|].
  rewrite IH. now destruct (isEmpty (JsMap.get m k)).
Qed.

Lemma length_delete (m : Board) k :
  NoDup (JsMap.keys m) ->
  (List.length (JsMap.delete m k) + (if isEmpty (JsMap.get m k) then 0 else 1)
   = List.length m)%nat.
Proof.
  induction m as [|[k0 v0] m IH]; simpl; intros Hnd; [reflexivity|].
  inversion Hnd as [|? ? Hnotin Hnd']; subst.
  destruct (String.eqb_spec k0 k) as [->|Hk]; simpl.
  - rewrite delete_absent; [lia|].
    destruct (JsMap.get m k) eqn:E; [|reflexivity].
    exfalso. apply Hnotin. apply JsMapFacts.get_In in E.
    change k with (fst (k, p)). now apply in_map.
  - specialize (IH Hnd'). lia.
Qed.

(** X1.  Distinct coordinates whose components are safe integers (the
    range in which the key is the text the template literal prints) have
    distinct map keys. *)
Theorem positionToKey_injective (p q : Position) :
  isSafePosition p -> isSafePosition q ->
  p <> q -> positionToKey p <> positionToKey q.
Proof. intros _ _ Hne E. apply Hne. now apply positionToKey_inj. Qed.

Lemma positionToKey_injective_witness :
  positionToKey (mkPosition 1 12 3) <> positionToKey (mkPosition 11 2 3) /\
  positionToKey (mkPosition (-1) 2 3) <> positionToKey (mkPosition 1 (-2) 3).
Proof.
  split; apply positionToKey_injective;
    first [ discriminate
          | unfold isSafePosition, isSafeInteger; cbn [x y z]; lia ].
Defined.

(** X2.  After [addPiece] the piece is found on its own square, every other
    square reads as before, and the board grows by one entry when the square
    was empty and keeps its size when an occupant is overwritten. *)
Theorem addPiece_then_getPiece (b : Board) (p : Piece) :
  getPiece (addPiece b p) (position p) = Some p /\
  (forall q, q <> position p -> getPiece (addPiece b p) q = getPiece b q) /\
  List.length (addPiece b p) =
    (if isEmpty (getPiece b (position p)) then S (List.length b) else List.length b).
Proof.
  unfold addPiece, getPiece. split; [apply JsMapFacts.get_set_same|]. split.
  - intros q Hq. apply JsMapFacts.get_set_other.
    intros E. apply positionToKey_inj in E. congruence.
  - apply length_set.
Qed.

Lemma addPiece_then_getPiece_witness :
  getPiece (addPiece setupBoard (mkPiece QUEEN BLACK (mkPosition 4 4 4) None))
           (mkPosition 5 1 1)
  = getPiece setupBoard (mkPosition 5 1 1).
Proof.
  apply (proj1 (proj2 (addPiece_then_getPiece setupBoard
                         (mkPiece QUEEN BLACK (mkPosition 4 4 4) None)))).
  discriminate.
Defined.

(** X3.  [removePiece] returns the occupant of the square (nothing when it is
    empty), leaves the square empty and every other square as it was; on an
    empty square the board is returned unchanged. *)
Theorem removePiece_effect (b : Board) (pos : Position) :
  fst (removePiece b pos) = getPiece b pos /\
  getPiece (snd (removePiece b pos)) pos = None /\
  (forall q, q <> pos -> getPiece (snd (removePiece b pos)) q = getPiece b q) /\
  (getPiece b pos = None -> snd (removePiece b pos) = b).
Proof.
  unfold removePiece, getPiece.
  destruct (JsMap.get b (positionToKey pos)) as [p|] eqn:E; cbn [fst snd].
  - split; [reflexivity|]. split; [apply JsMapFacts.get_delete_same|].
    split; [|discriminate].
    intros q Hq. apply JsMapFacts.get_delete_other.
    intros E'. apply positionToKey_inj in E'. congruence.
  - repeat split; auto.
Qed.

Lemma removePiece_effect_witness :
  getPiece (snd (removePiece setupBoard (mkPosition 5 1 1))) (mkPosition 4 1 1)
  = getPiece setupBoard (mkPosition 4 1 1) /\
  snd (removePiece setupBoard (mkPosition 4 4 4)) = setupBoard.
Proof.
  destruct (removePiece_effect setupBoard (mkPosition 5 1 1)) as (_ & _ & Hother & _).
  destruct (removePiece_effect setupBoard (mkPosition 4 4 4)) as (_ & _ & _ & Hempty).
  split; [apply Hother; discriminate|apply Hempty; reflexivity].
Defined.

(** X4.  [movePiece] from an empty square returns nothing and the board as
    it was.  From an occupied square to another square it returns the former
    occupant of the destination, empties the origin, puts the relocated mover
    on the destination and leaves every other square as it was.  Onto its own
    square it captures nothing and the piece stays, marked as relocated. *)
Theorem movePiece_effect (b : Board) (src dst : Position) :
  (getPiece b src = None -> movePiece b src dst = (None, b)) /\
  (forall p, getPiece b src = Some p -> src <> dst ->
     fst (movePiece b src dst) = getPiece b dst /\
     getPiece (snd (movePiece b src dst)) src = None /\
     getPiece (snd (movePiece b src dst)) dst = Some (relocated p dst) /\
     (forall q, q <> src -> q <> dst ->
        getPiece (snd (movePiece b src dst)) q = getPiece b q)) /\
  (forall p, getPiece b src = Some p -> src = dst ->
     fst (movePiece b src dst) = None /\
     getPiece (snd (movePiece b src dst)) dst = Some (relocated p dst)).
Proof.
  split; [|split].
  - unfold movePiece, removePiece, getPiece. now intros ->.
  - intros p Hp Hne.
    assert (Hk : positionToKey src <> positionToKey dst)
      by (intros E; apply positionToKey_inj in E; congruence).
    rewrite (movePiece_board _ _ _ _ Hp). split; [|split; [|split]].
    + unfold movePiece, removePiece. unfold getPiece in Hp. rewrite Hp.
      cbn [fst]. unfold getPiece. now apply JsMapFacts.get_delete_other.
    + unfold getPiece. rewrite JsMapFacts.get_set_other by congruence.
      rewrite JsMapFacts.get_delete_other by congruence.
      apply JsMapFacts.get_delete_same.
    + apply JsMapFacts.get_set_same.
    + intros q Hs Hd. unfold getPiece.
      assert (positionToKey dst <> positionToKey q)
        by (intros E; apply positionToKey_inj in E; congruence).
      assert (positionToKey src <> positionToKey q)
        by (intros E; apply positionToKey_inj in E; congruence).
      now rewrite JsMapFacts.get_set_other, !JsMapFacts.get_delete_other.
  - intros p Hp <-. rewrite (movePiece_board _ _ _ _ Hp).
    split; [|apply JsMapFacts.get_set_same].
    unfold movePiece, removePiece. unfold getPiece in Hp. rewrite Hp.
    cbn [fst]. unfold getPiece. apply JsMapFacts.get_delete_same.
Qed.

Lemma movePiece_effect_witness :
  movePiece setupBoard (mkPosition 4 4 4) (mkPosition 4 4 5) = (None, setupBoard) /\
  fst (movePiece rookBoard (mkPosition 1 1 1) (mkPosition 1 3 1))
  = getPiece rookBoard (mkPosition 1 3 1) /\
  fst (movePiece rookBoard (mkPosition 1 1 1) (mkPosition 1 1 1)) = None.
Proof.
  split; [|split].
  - apply (proj1 (movePiece_effect setupBoard (mkPosition 4 4 4) (mkPosition 4 4 5))).
    reflexivity.
  - apply (proj1 (proj2 (movePiece_effect rookBoard (mkPosition 1 1 1) (mkPosition 1 3 1)))
             rookA1); [reflexivity|discriminate].
  - apply (proj2 (proj2 (movePiece_effect rookBoard (mkPosition 1 1 1) (mkPosition 1 1 1)))
             rookA1); reflexivity.
Defined.

(** X5.  [getPiecesByColor] lists exactly the pieces of the board that have
    the colour, and the white and the black lists together have as many
    pieces as the board has entries. *)
Theorem getPiecesByColor_partition (b : Board) :
  (forall c p, In p (getPiecesByColor b c) <-> In p (JsMap.values b) /\ color p = c) /\
  (List.length (getPiecesByColor b WHITE) + List.length (getPiecesByColor b BLACK)
   = List.length b)%nat.
Proof.
  split; [intros c p; apply getPiecesByColor_In|].
  unfold getPiecesByColor, JsMap.values.
  induction b as [|[k p] b IH]; simpl; [reflexivity|].
  destruct (color p); simpl; lia.
Qed.

(** ** The geometry of the generators *)

Lemma offset_of_difference (a m : Position) :
  m = offset a (mkPosition (x m - x a) (y m - y a) (z m - z a)).
Proof. destruct a, m. unfold offset; cbn [x y z]. f_equal; lia. Qed.

Ltac in_offsets := cbn [In]; tauto.

(** X6.  The destinations of a knight are exactly the squares on the board,
    not held by a piece of its colour, that lie an L-shaped jump away inside
    one coordinate plane (one axis unchanged, one changed by 1, one by 2): no
    destination changes all three axes. *)
Theorem knight_destinations (p : Piece) (b : Board) (m : Position) :
  type p = KNIGHT ->
  (In m (getValidMoves p b) <->
   isValidPosition m = true /\
   (forall q, getPiece b m = Some q -> color q <> color p) /\
   isKnightJump (position p) m).
Proof.
  intros Ht. unfold getValidMoves. rewrite Ht. unfold getKnightMoves.
  rewrite filter_In, andb_true_iff, isFreeOrOpponent_spec, in_map_iff. split.
  - intros ((d & <- & Hd) & Hv & Hfree). repeat split; try assumption.
    unfold knightOffsets in Hd. cbn [In] in Hd.
    unfold isKnightJump, dx, dy, dz, offset. cbn [x y z].
    repeat (destruct Hd as [<-|Hd]; [cbn [x y z]; lia|]). contradiction.
  - intros (Hv & Hfree & Hjump). repeat split; try assumption.
    exists (mkPosition (x m - x (position p)) (y m - y (position p))
                       (z m - z (position p))).
    split; [symmetry; apply offset_of_difference|].
    unfold isKnightJump, dx, dy, dz in Hjump.
    set (a := x m - x (position p)) in *.
    set (b0 := y m - y (position p)) in *.
    set (c := z m - z (position p)) in *.
    assert (Ha : a = -2 \/ a = -1 \/ a = 0 \/ a = 1 \/ a = 2) by lia.
    assert (Hb : b0 = -2 \/ b0 = -1 \/ b0 = 0 \/ b0 = 1 \/ b0 = 2) by lia.
    assert (Hc : c = -2 \/ c = -1 \/ c = 0 \/ c = 1 \/ c = 2) by lia.
    clearbody a b0 c.
    destruct Ha as [->|[->|[->|[->| ->]]]], Hb as [->|[->|[->|[->| ->]]]],
             Hc as [->|[->|[->|[->| ->]]]];
      first [ exfalso; lia | unfold knightOffsets; in_offsets ].
Qed.

Lemma knight_destinations_witness :
  (In (mkPosition 3 3 1)
      (getValidMoves (mkPiece KNIGHT WHITE (mkPosition 2 1 1) None) setupBoard) <->
   isValidPosition (mkPosition 3 3 1) = true /\
   (forall q, getPiece setupBoard (mkPosition 3 3 1) = Some q -> color q <> WHITE) /\
   isKnightJump (mkPosition 2 1 1) (mkPosition 3 3 1)).
Proof.
  exact (knight_destinations (mkPiece KNIGHT WHITE (mkPosition 2 1 1) None)
           setupBoard (mkPosition 3 3 1) eq_refl).
Defined.

(** X7.  The destinations of a king are exactly the neighbouring squares (at
    most one step on every axis, not its own square) that are on the board
    and not held by a piece of its colour. *)
Theorem king_destinations (p : Piece) (b : Board) (m : Position) :
  type p = KING ->
  (In m (getValidMoves p b) <->
   isValidPosition m = true /\
   (forall q, getPiece b m = Some q -> color q <> color p) /\
   isNeighbour (position p) m).
Proof.
  intros Ht. unfold getValidMoves. rewrite Ht. unfold getKingMoves.
  rewrite filter_In, andb_true_iff, isFreeOrOpponent_spec, in_map_iff. split.
  - intros ((d & <- & Hd) & Hv & Hfree). repeat split; try assumption.
    + intros E. symmetry in E. revert E. apply offset_not_start.
      pose proof kingOffsets_nonZero as H. rewrite Forall_forall in H. now apply H.
    + revert Hd. let l := eval vm_compute in kingOffsets in change kingOffsets with l.
      cbn [In]. unfold dx, offset. cbn [x y z]. intros Hd.
      repeat (destruct Hd as [<-|Hd]; [cbn [x y z]; lia|]). contradiction.
    + revert Hd. let l := eval vm_compute in kingOffsets in change kingOffsets with l.
      cbn [In]. unfold dy, offset. cbn [x y z]. intros Hd.
      repeat (destruct Hd as [<-|Hd]; [cbn [x y z]; lia|]). contradiction.
    + revert Hd. let l := eval vm_compute in kingOffsets in change kingOffsets with l.
      cbn [In]. unfold dz, offset. cbn [x y z]. intros Hd.
      repeat (destruct Hd as [<-|Hd]; [cbn [x y z]; lia|]). contradiction.
  - intros (Hv & Hfree & Hne & Hx & Hy & Hz). repeat split; try assumption.
    exists (mkPosition (x m - x (position p)) (y m - y (position p))
                       (z m - z (position p))).
    split; [symmetry; apply offset_of_difference|].
    unfold dx, dy, dz in *.
    assert (Hnz : x m - x (position p) <> 0 \/ y m - y (position p) <> 0 \/
                  z m - z (position p) <> 0).
    { destruct (position p) as [a0 b0 c0], m as [a1 b1 c1]. cbn [x y z] in *.
      destruct (Z.eq_dec a1 a0), (Z.eq_dec b1 b0), (Z.eq_dec c1 c0);
        try lia. subst. now elim Hne. }
    set (a := x m - x (position p)) in *.
    set (b0 := y m - y (position p)) in *.
    set (c := z m - z (position p)) in *.
    assert (Ha : a = -1 \/ a = 0 \/ a = 1) by lia.
    assert (Hb : b0 = -1 \/ b0 = 0 \/ b0 = 1) by lia.
    assert (Hc : c = -1 \/ c = 0 \/ c = 1) by lia.
    clearbody a b0 c.
    let l := eval vm_compute in kingOffsets in change kingOffsets with l.
    destruct Ha as [->|[->| ->]], Hb as [->|[->| ->]], Hc as [->|[->| ->]];
      first [ exfalso; lia | in_offsets ].
Qed.

Lemma king_destinations_witness :
  (In (mkPosition 1 1 2)
      (getValidMoves (mkPiece KING WHITE (mkPosition 1 1 1) None) rookBoard) <->
   isValidPosition (mkPosition 1 1 2) = true /\
   (forall q, getPiece rookBoard (mkPosition 1 1 2) = Some q -> color q <> WHITE) /\
   isNeighbour (mkPosition 1 1 1) (mkPosition 1 1 2)).
Proof.
  exact (king_destinations (mkPiece KING WHITE (mkPosition 1 1 1) None)
           rookBoard (mkPosition 1 1 2) eq_refl).
Defined.

(** ** Sliding pieces in general *)

Lemma axis_step_unique (a a' k k' : Z) :
  -1 <= a <= 1 -> -1 <= a' <= 1 -> 1 <= k -> 1 <= k' ->
  k * a = k' * a' -> a = a' /\ (a <> 0 -> k = k').
Proof.
  intros Ha Ha' Hk Hk' E.
  assert (Ca : a = -1 \/ a = 0 \/ a = 1) by lia.
  assert (Ca' : a' = -1 \/ a' = 0 \/ a' = 1) by lia.
  destruct Ca as [->|[->| ->]], Ca' as [->|[->| ->]]; lia.
Qed.

(** Two rays from the same square meet only when they are the same ray. *)
Lemma ray_unique (p d d' : Position) (k k' : Z) :
  isDirection d -> isDirection d' -> 1 <= k -> 1 <= k' ->
  rayAt p d k = rayAt p d' k' -> d = d' /\ k = k'.
Proof.
  intros (Hx & Hy & Hz & Hnz) (Hx' & Hy' & Hz' & _) Hk Hk' E.
  apply (f_equal x) in E as Ex. apply (f_equal y) in E as Ey.
  apply (f_equal z) in E as Ez. clear E.
  unfold rayAt in Ex, Ey, Ez. cbn [x y z] in Ex, Ey, Ez.
  destruct (axis_step_unique (x d) (x d') k k' Hx Hx' Hk Hk') as [Ex1 Ex2]; [lia|].
  destruct (axis_step_unique (y d) (y d') k k' Hy Hy' Hk Hk') as [Ey1 Ey2]; [lia|].
  destruct (axis_step_unique (z d) (z d') k k' Hz Hz' Hk Hk') as [Ez1 Ez2]; [lia|].
  split.
  - destruct d, d'. cbn [x y z] in *. congruence.
  - destruct Hnz as [H|[H|H]]; auto.
Qed.

Lemma directionsOf_ok (t : PieceType) : Forall isDirection (directionsOf t).
Proof.
  destruct t; cbn [directionsOf]; try apply Forall_nil.
  - apply rookDirections_ok.
  - apply bishopDirections_ok.
  - apply Forall_app. split; [apply rookDirections_ok|apply bishopDirections_ok].
Qed.

(** The list of a sliding piece is the concatenation of its rays. *)
Lemma sliding_moves (p : Piece) (b : Board) :
  type p = ROOK \/ type p = BISHOP \/ type p = QUEEN ->
  getValidMoves p b =
  getLinearMoves (position p) (directionsOf (type p)) b (color p).
Proof.
  unfold getValidMoves. intros [->|[->| ->]]; try reflexivity.
  unfold getQueenMoves, getRookMoves, getBishopMoves, getLinearMoves. cbn [directionsOf].
  now rewrite flat_map_app.
Qed.

Lemma directionsOf_sliding (t : PieceType) (d : Position) :
  In d (directionsOf t) -> t = ROOK \/ t = BISHOP \/ t = QUEEN.
Proof. destruct t; cbn [directionsOf In]; auto; contradiction. Qed.

(** Membership of a ray square in the list of a sliding piece. *)
Lemma sliding_move_iff (p : Piece) (b : Board) (d : Position) (k : Z) :
  In d (directionsOf (type p)) -> 1 <= k ->
  (In (rayAt (position p) d k) (getValidMoves p b) <->
   (forall j, 1 <= j < k ->
      isValidPosition (rayAt (position p) d j) = true /\
      getPiece b (rayAt (position p) d j) = None) /\
   isValidPosition (rayAt (position p) d k) = true /\
   isFreeOrOpponent (getPiece b (rayAt (position p) d k)) (color p) = true).
Proof.
  intros Hd Hk.
  rewrite (sliding_moves p b (directionsOf_sliding _ _ Hd)).
  pose proof (directionsOf_ok (type p)) as Hdirs. rewrite Forall_forall in Hdirs.
  rewrite getLinearMoves_In. split.
  - intros (d' & Hd' & Hin).
    apply slide_In in Hin as (k' & Hk' & E & Hbefore & Hv & Hfree).
    destruct (ray_unique _ _ _ _ _ (Hdirs d Hd) (Hdirs d' Hd') Hk (proj1 Hk') E)
      as [<- <-].
    auto.
  - intros (Hbefore & Hv & Hfree). exists d. split; [assumption|].
    apply slide_In. exists k. repeat split; try assumption; try lia.
    + change (Z.of_nat boardSize) with 8.
      apply (ray_within_board (position p) d k (Hdirs d Hd) Hk); [|assumption].
      assert (k = 1 \/ 1 < k) as [->|Hgt] by lia; [assumption|].
      apply Hbefore. lia.
    + apply Hbefore. assumption.
    + apply Hbefore. assumption.
Qed.

(** X8.  The blockage rule holds for every sliding piece (rook, bishop,
    queen) along each of its directions: with the squares before square [n]
    of the ray on the board and empty, those squares are destinations; if
    square [n] is off the board or holds a friendly piece, no square from it
    on is a destination; if it holds an opposing piece, it is a destination
    and no square beyond it is. *)
Theorem sliding_ray_blocking (p : Piece) (b : Board) (d : Position) (n : Z) :
  In d (directionsOf (type p)) -> 1 <= n ->
  (forall k, 1 <= k < n ->
     isValidPosition (rayAt (position p) d k) = true /\
     getPiece b (rayAt (position p) d k) = None) ->
  (forall k, 1 <= k < n -> In (rayAt (position p) d k) (getValidMoves p b)) /\
  (isValidPosition (rayAt (position p) d n) = false ->
   forall k, n <= k -> ~ In (rayAt (position p) d k) (getValidMoves p b)) /\
  (forall q,
     isValidPosition (rayAt (position p) d n) = true ->
     getPiece b (rayAt (position p) d n) = Some q ->
     (color q = color p ->
      forall k, n <= k -> ~ In (rayAt (position p) d k) (getValidMoves p b)) /\
     (color q <> color p ->
      In (rayAt (position p) d n) (getValidMoves p b) /\
      forall k, n < k -> ~ In (rayAt (position p) d k) (getValidMoves p b))).
Proof.
  intros Hd Hn Hbefore. split; [|split].
  - intros k Hk. apply sliding_move_iff; [assumption|lia|].
    split; [|split].
    + intros j Hj. apply Hbefore. lia.
    + apply Hbefore. assumption.
    + destruct (Hbefore k Hk) as [_ ->]. reflexivity.
  - intros Hout k Hk Hin. apply sliding_move_iff in Hin; [|assumption|lia].
    destruct Hin as (Hprev & Hv & _).
    assert (k = n \/ n < k) as [->|Hgt] by lia; [congruence|].
    destruct (Hprev n) as [Hvn _]; [lia|]. congruence.
  - intros q Hv Hq. split.
    + intros Hc k Hk Hin. apply sliding_move_iff in Hin; [|assumption|lia].
      destruct Hin as (Hprev & _ & Hfree).
      assert (k = n \/ n < k) as [->|Hgt] by lia.
      * rewrite Hq in Hfree. simpl in Hfree.
        rewrite Hc, PieceColor_eqb_refl in Hfree. discriminate.
      * destruct (Hprev n) as [_ He]; [lia|]. congruence.
    + intros Hc. split.
      * apply sliding_move_iff; [assumption|lia|].
        split; [exact Hbefore|]. split; [assumption|].
        rewrite Hq. simpl. now apply negb_true_iff, PieceColor_eqb_neq.
      * intros k Hk Hin. apply sliding_move_iff in Hin; [|assumption|lia].
        destruct Hin as (Hprev & _).
        destruct (Hprev n) as [_ He]; [lia|]. congruence.
Qed.

Lemma sliding_ray_blocking_witness :
  In (mkPosition 4 2 2)
     (getValidMoves (mkPiece QUEEN WHITE (mkPosition 4 1 1) None) setupBoard) /\
  In (mkPosition 4 7 7)
     (getValidMoves (mkPiece QUEEN WHITE (mkPosition 4 1 1) None) setupBoard).
Proof.
  assert (Hd : In (mkPosition 0 1 1) (directionsOf QUEEN)) by (simpl; tauto).
  assert (Hbefore : forall k, 1 <= k < 8 ->
            isValidPosition (rayAt (mkPosition 4 1 1) (mkPosition 0 1 1) k) = true /\
            getPiece setupBoard (rayAt (mkPosition 4 1 1) (mkPosition 0 1 1) k) = None).
  { intros k Hk.
    assert (k = 1 \/ k = 2 \/ k = 3 \/ k = 4 \/ k = 5 \/ k = 6 \/ k = 7)
      as [->|[->|[->|[->|[->|[->| ->]]]]]] by lia;
      split; vm_compute; reflexivity. }
  destruct (sliding_ray_blocking (mkPiece QUEEN WHITE (mkPosition 4 1 1) None)
              setupBoard (mkPosition 0 1 1) 8 Hd ltac:(lia) Hbefore) as (Hfree & _).
  split; [exact (Hfree 1 ltac:(lia))|exact (Hfree 6 ltac:(lia))].
Defined.

(** X9.  A rook's destination differs from its square on exactly one axis, a
    bishop's on at least two axes and by the same amount on each axis that
    changes, and a queen's in one of these two ways. *)
Theorem sliding_geometry (p : Piece) (b : Board) (m : Position) :
  In m (getValidMoves p b) ->
  (type p = ROOK -> isAxial (position p) m) /\
  (type p = BISHOP -> isDiagonal (position p) m) /\
  (type p = QUEEN -> isAxial (position p) m \/ isDiagonal (position p) m).
Proof.
  intros Hin.
  assert (Hrook : forall d k, In d rookDirections -> 1 <= k ->
            isAxial (position p) (rayAt (position p) d k)).
  { intros d k Hd Hk. unfold rookDirections in Hd. cbn [In] in Hd.
    unfold isAxial, dx, dy, dz, rayAt. cbn [x y z].
    repeat (destruct Hd as [<-|Hd]; [cbn [x y z]; lia|]). contradiction. }
  assert (Hbishop : forall d k, In d bishopDirections -> 1 <= k ->
            isDiagonal (position p) (rayAt (position p) d k)).
  { intros d k Hd Hk. exists k. unfold bishopDirections in Hd. cbn [In] in Hd.
    unfold dx, dy, dz, rayAt. cbn [x y z].
    repeat (destruct Hd as [<-|Hd]; [cbn [x y z]; lia|]). contradiction. }
  split; [|split]; intros Ht.
  - rewrite (sliding_moves p b (or_introl Ht)), Ht in Hin.
    apply getLinearMoves_In in Hin as (d & Hd & Hin).
    apply slide_In in Hin as (k & Hk & -> & _). apply Hrook; [assumption|lia].
  - rewrite (sliding_moves p b (or_intror (or_introl Ht))), Ht in Hin.
    apply getLinearMoves_In in Hin as (d & Hd & Hin).
    apply slide_In in Hin as (k & Hk & -> & _). apply Hbishop; [assumption|lia].
  - rewrite (sliding_moves p b (or_intror (or_intror Ht))), Ht in Hin.
    apply getLinearMoves_In in Hin as (d & Hd & Hin).
    apply slide_In in Hin as (k & Hk & -> & _).
    cbn [directionsOf] in Hd. apply in_app_iff in Hd as [Hd|Hd].
    + left. apply Hrook; [assumption|lia].
    + right. apply Hbishop; [assumption|lia].
Qed.

Lemma sliding_geometry_witness :
  (type rookA1 = ROOK -> isAxial (position rookA1) (mkPosition 1 3 1)) /\
  (type rookA1 = BISHOP -> isDiagonal (position rookA1) (mkPosition 1 3 1)) /\
  (type rookA1 = QUEEN ->
   isAxial (position rookA1) (mkPosition 1 3 1) \/
   isDiagonal (position rookA1) (mkPosition 1 3 1)).
Proof.
  apply (sliding_geometry rookA1 rookBoard (mkPosition 1 3 1)).
  vm_compute. tauto.
Defined.

(** ** Pawns in full *)

Lemma isOpponent_spec (o : option Piece) (c : PieceColor) :
  isOpponent o c = true <-> exists q, o = Some q /\ color q <> c.
Proof.
  destruct o as [q|]; simpl.
  - rewrite negb_true_iff, PieceColor_eqb_neq. split.
    + intros H. now exists q.
    + now intros (q' & [= <-] & H).
  - split; [discriminate|]. now intros (q & [=] & _).
Qed.

Lemma isEmpty_spec (o : option Piece) : isEmpty o = true <-> o = None.
Proof. destruct o; simpl; split; congruence. Qed.

(** X10.  The destinations of a pawn are exactly: the single step when that
    square is empty; the double step when [hasMoved] is not true and both
    step squares are on the board and empty; the vertical step when that
    square is empty; and a capture square (one file aside, one rank ahead, at
    most one layer off) when it holds an opposing piece.  All are on the
    board.  So a pawn never captures straight ahead and never moves sideways
    or backwards. *)
Theorem pawn_destinations (p : Piece) (b : Board) (m : Position) :
  type p = PAWN ->
  (In m (getValidMoves p b) <->
   isValidPosition m = true /\
   ((m = singleStep p /\ getPiece b m = None) \/
    (m = doubleStep p /\ hasMoved p <> Some true /\
     isValidPosition (singleStep p) = true /\ getPiece b (singleStep p) = None /\
     getPiece b m = None) \/
    (m = verticalStep p /\ getPiece b m = None) \/
    (isPawnCapture p m /\ exists q, getPiece b m = Some q /\ color q <> color p))).
Proof.
  intros Ht. unfold getValidMoves. rewrite Ht. split.
  - intros Hin. split; [now apply getPawnMoves_safe in Hin as (Hv & _)|].
    pose proof Hin as Hin0.
    unfold getPawnMoves in Hin. rewrite !in_app_iff in Hin.
    fold (pawnDirection (color p)) in Hin. fold (singleStep p) in Hin.
    fold (doubleStep p) in Hin.
    destruct Hin as [Hin|[Hin|[Hin|Hin]]].
    + destruct (isValidPosition (singleStep p) && isEmpty (getPiece b (singleStep p)))
        eqn:E1; [|contradiction].
      apply andb_true_iff in E1 as [Hv1 He1]. apply isEmpty_spec in He1.
      destruct Hin as [<-|Hin]; [left; now split|].
      right; left.
      assert (m = doubleStep p).
      { destruct (hasMoved p) as [[|]|]; [contradiction| |];
          (destruct (isValidPosition (doubleStep p) &&
                     isEmpty (getPiece b (doubleStep p)));
           [destruct Hin as [<-|[]]; reflexivity|contradiction]). }
      subst m. apply doubleStep_offered in Hin0. tauto.
    + right; right; right.
      apply filter_In in Hin as [Hin Hok].
      apply andb_true_iff in Hok as [_ Ho]. apply isOpponent_spec in Ho.
      split; [|assumption].
      unfold isPawnCapture, dx, dz.
      destruct Hin as [<-|[<-|[]]]; cbn [x y z]; lia.
    + right; right; left. fold (verticalStep p) in Hin.
      destruct (isValidPosition (verticalStep p) && isEmpty (getPiece b (verticalStep p)))
        eqn:E1; [|contradiction].
      apply andb_true_iff in E1 as [_ He1]. apply isEmpty_spec in He1.
      destruct Hin as [<-|[]]. now split.
    + right; right; right.
      apply filter_In in Hin as [Hin Hok].
      apply andb_true_iff in Hok as [_ Ho]. apply isOpponent_spec in Ho.
      split; [|assumption].
      unfold isPawnCapture, dx, dz.
      destruct Hin as [<-|[<-|[<-|[<-|[]]]]]; cbn [x y z]; lia.
  - intros (Hv & [(-> & He)|[(-> & Hm & Hv1 & He1 & He)|[(-> & He)|(Hcap & Ho)]]]).
    + unfold getPawnMoves. fold (pawnDirection (color p)). fold (singleStep p).
      rewrite !in_app_iff. left. rewrite Hv, He. cbn [andb isEmpty]. now left.
    + apply doubleStep_offered. tauto.
    + unfold getPawnMoves. fold (pawnDirection (color p)). fold (verticalStep p).
      rewrite !in_app_iff. right; right; left. rewrite Hv, He. cbn [andb isEmpty].
      now left.
    + apply isOpponent_spec in Ho.
      unfold getPawnMoves. fold (pawnDirection (color p)).
      rewrite !in_app_iff, !filter_In, Hv, Ho. cbn [andb].
      destruct Hcap as (Hx & Hy & Hz). unfold dx, dz in Hx, Hz.
      destruct m as [mx my mz]. cbn [x y z] in Hx, Hy, Hz. subst my.
      assert (Cx : mx = x (position p) - 1 \/ mx = x (position p) + 1) by lia.
      assert (Cz : mz = z (position p) \/ mz = z (position p) + 1 \/
                   mz = z (position p) - 1) by lia.
      destruct Cx as [-> | ->], Cz as [->|[-> | ->]]; cbn [In]; tauto.
Qed.

Lemma pawn_destinations_witness :
  (In (mkPosition 1 4 1)
      (getValidMoves (mkPiece PAWN WHITE (mkPosition 1 2 1) (Some false)) setupBoard) <->
   isValidPosition (mkPosition 1 4 1) = true /\
   ((mkPosition 1 4 1 = singleStep (mkPiece PAWN WHITE (mkPosition 1 2 1) (Some false)) /\
     getPiece setupBoard (mkPosition 1 4 1) = None) \/
    (mkPosition 1 4 1 = doubleStep (mkPiece PAWN WHITE (mkPosition 1 2 1) (Some false)) /\
     hasMoved (mkPiece PAWN WHITE (mkPosition 1 2 1) (Some false)) <> Some true /\
     isValidPosition (singleStep (mkPiece PAWN WHITE (mkPosition 1 2 1) (Some false)))
       = true /\
     getPiece setupBoard (singleStep (mkPiece PAWN WHITE (mkPosition 1 2 1) (Some false)))
       = None /\
     getPiece setupBoard (mkPosition 1 4 1) = None) \/
    (mkPosition 1 4 1 = verticalStep (mkPiece PAWN WHITE (mkPosition 1 2 1) (Some false)) /\
     getPiece setupBoard (mkPosition 1 4 1) = None) \/
    (isPawnCapture (mkPiece PAWN WHITE (mkPosition 1 2 1) (Some false)) (mkPosition 1 4 1) /\
     exists q, getPiece setupBoard (mkPosition 1 4 1) = Some q /\ color q <> WHITE))).
Proof.
  exact (pawn_destinations (mkPiece PAWN WHITE (mkPosition 1 2 1) (Some false))
           setupBoard (mkPosition 1 4 1) eq_refl).
Defined.

(** ** No destination is listed twice *)

Lemma NoDup_positions (l : list Position) : nodup Position_eq_dec l = l -> NoDup l.
Proof. intros <-. apply NoDup_nodup. Qed.

Lemma NoDup_flat_map {A B : Type} (f : A -> list B) (l : list A) :
  NoDup l ->
  (forall a, In a l -> NoDup (f a)) ->
  (forall a a' m, In a l -> In a' l -> In m (f a) -> In m (f a') -> a = a') ->
  NoDup (flat_map f l).
Proof.
  induction 1 as [|a l Hnotin Hnd IH]; intros Heach Hdisj; simpl; [constructor|].
  apply NoDup_app.
  - apply Heach. now left.
  - apply IH.
    + intros a' Ha'. apply Heach. now right.
    + intros a1 a2 m H1 H2. apply Hdisj; now right.
  - intros m Hm Hin. apply in_flat_map in Hin as (a' & Ha' & Hm').
    assert (a = a') by (apply (Hdisj a a' m); auto; [now left|now right]).
    subst a'. contradiction.
Qed.

Lemma slide_NoDup (f : nat) (b : Board) (c : PieceColor) (d cur : Position) :
  isDirection d -> NoDup (slide f b c d cur).
Proof.
  intros Hd. revert cur. induction f as [|f IH]; intros cur; [constructor|].
  rewrite slide_S.
  destruct (isValidPosition (offset cur d)); cbn [negb]; [|constructor].
  destruct (getPiece b (offset cur d)) as [q|].
  - destruct (negb (PieceColor_eqb (color q) c)); [|constructor].
    constructor; [intros []|constructor].
  - constructor; [|apply IH].
    intros Hin. apply slide_In in Hin as (k & Hk & E & _).
    rewrite rayAt_offset, <- rayAt_one in E.
    destruct (ray_unique cur d d 1 (k + 1) Hd Hd) as [_ Hk1]; try lia.
    exact E.
Qed.

Lemma getLinearMoves_NoDup (start : Position) (dirs : list Position)
    (b : Board) (c : PieceColor) :
  Forall isDirection dirs -> NoDup dirs ->
  NoDup (getLinearMoves start dirs b c).
Proof.
  intros Hdirs Hnd. rewrite Forall_forall in Hdirs.
  apply NoDup_flat_map; [assumption| |].
  - intros d Hd. apply slide_NoDup. now apply Hdirs.
  - intros d d' m Hd Hd' Hm Hm'.
    apply slide_In in Hm as (k & Hk & -> & _).
    apply slide_In in Hm' as (k' & Hk' & E & _).
    now destruct (ray_unique start d d' k k' (Hdirs d Hd) (Hdirs d' Hd')
                    (proj1 Hk) (proj1 Hk') E).
Qed.

Lemma offset_injective (p d d' : Position) : offset p d = offset p d' -> d = d'.
Proof.
  destruct p, d, d'. unfold offset; cbn [x y z]. intros [= H1 H2 H3].
  f_equal; lia.
Qed.

Lemma stepMoves_NoDup (p : Piece) (b : Board) (offs : list Position) :
  NoDup offs ->
  NoDup (filter (fun newPos =>
                   isValidPosition newPos &&
                   isFreeOrOpponent (getPiece b newPos) (color p))
                (map (offset (position p)) offs)).
Proof.
  intros Hnd. apply NoDup_filter.
  induction Hnd as [|d l Hnotin Hnd IH]; simpl; constructor; [|assumption].
  intros Hin. apply in_map_iff in Hin as (d' & E & Hd').
  apply offset_injective in E. now subst.
Qed.

Lemma getPawnMoves_NoDup (p : Piece) (b : Board) : NoDup (getPawnMoves p b).
Proof.
  unfold getPawnMoves.
  destruct p as [t c [px py pz] hm]; cbn [position color x y z hasMoved].
  set (direction := if PieceColor_eqb c WHITE then 1 else -1).
  assert (Hdir : direction = 1 \/ direction = -1) by apply pawnDirection_cases.
  clearbody direction.
  set (c1 := isValidPosition (mkPosition px (py + direction) pz) &&
             isEmpty (getPiece b (mkPosition px (py + direction) pz))).
  set (c2 := isValidPosition (mkPosition px (py + 2 * direction) pz) &&
             isEmpty (getPiece b (mkPosition px (py + 2 * direction) pz))).
  set (c3 := isValidPosition (mkPosition px py (pz + direction)) &&
             isEmpty (getPiece b (mkPosition px py (pz + direction)))).
  clearbody c1 c2 c3.
  match goal with
  | |- NoDup (?f ++ ?c ++ ?u ++ ?d) =>
      set (forward := f); set (captures := c); set (up := u); set (diagonals := d)
  end.
  assert (Hf : forall m, In m forward -> x m = px /\ y m <> py /\ z m = pz).
  { subst forward. intros m.
    destruct c1; [|contradiction].
    intros [<-|Hin]; [cbn [x y z]; lia|].
    destruct hm as [[|]|], c2; try contradiction;
      destruct Hin as [<-|[]]; cbn [x y z]; lia. }
  assert (Hc : forall m, In m captures -> x m <> px /\ z m = pz).
  { subst captures. intros m Hin. apply filter_In in Hin as [Hin _].
    destruct Hin as [<-|[<-|[]]]; cbn [x y z]; lia. }
  assert (Hu : forall m, In m up -> x m = px /\ y m = py).
  { subst up. intros m. destruct c3; [|contradiction].
    intros [<-|[]]; cbn [x y z]; lia. }
  assert (Hd : forall m, In m diagonals -> x m <> px /\ z m <> pz).
  { subst diagonals. intros m Hin. apply filter_In in Hin as [Hin _].
    destruct Hin as [<-|[<-|[<-|[<-|[]]]]]; cbn [x y z]; lia. }
  assert (Nf : NoDup forward).
  { subst forward. destruct c1; [|constructor].
    constructor.
    - destruct hm as [[|]|], c2;
        first [ intros [E|[]]; revert E; differ | intros [] ].
    - destruct hm as [[|]|], c2; repeat constructor; intros []. }
  assert (Nc : NoDup captures).
  { subst captures. apply NoDup_filter.
    constructor; [intros [E|[]]; revert E; differ|].
    constructor; [intros []|constructor]. }
  assert (Nu : NoDup up).
  { subst up. destruct c3; [|constructor].
    constructor; [intros []|constructor]. }
  assert (Nd : NoDup diagonals).
  { subst diagonals. apply NoDup_filter.
    repeat (constructor;
            [cbn [In]; intros H;
             repeat (destruct H as [H|H]; [revert H; differ|]); exact H|]).
    constructor. }
  clearbody forward captures up diagonals.
  apply NoDup_app; [assumption| |].
  - apply NoDup_app; [assumption| |].
    + apply NoDup_app; [assumption|assumption|].
      intros m H1 H2. apply Hu in H1. apply Hd in H2. tauto.
    + intros m H1 H2. apply Hc in H1. apply in_app_iff in H2 as [H2|H2].
      * apply Hu in H2. tauto.
      * apply Hd in H2. tauto.
  - intros m H1 H2. apply Hf in H1. apply in_app_iff in H2 as [H2|H2].
    + apply Hc in H2. tauto.
    + apply in_app_iff in H2 as [H2|H2].
      * apply Hu in H2. tauto.
      * apply Hd in H2. tauto.
Qed.

(** X11.  [getValidMoves] never lists a destination twice, for any piece and
    any board. *)
Theorem getValidMoves_NoDup (p : Piece) (b : Board) : NoDup (getValidMoves p b).
Proof.
  assert (Hr : NoDup rookDirections) by (apply NoDup_positions; vm_compute; reflexivity).
  assert (Hb : NoDup bishopDirections) by (apply NoDup_positions; vm_compute; reflexivity).
  assert (Hq : NoDup (rookDirections ++ bishopDirections))
    by (apply NoDup_positions; vm_compute; reflexivity).
  unfold getValidMoves. destruct (type p).
  - apply getPawnMoves_NoDup.
  - apply getLinearMoves_NoDup; [apply rookDirections_ok|assumption].
  - apply stepMoves_NoDup. apply NoDup_positions. vm_compute. reflexivity.
  - apply getLinearMoves_NoDup; [apply bishopDirections_ok|assumption].
  - unfold getQueenMoves, getRookMoves, getBishopMoves, getLinearMoves.
    rewrite <- flat_map_app.
    apply (getLinearMoves_NoDup (position p) (rookDirections ++ bishopDirections));
      [|assumption].
    apply Forall_app. split; [apply rookDirections_ok|apply bishopDirections_ok].
  - apply stepMoves_NoDup. apply NoDup_positions. vm_compute. reflexivity.
Qed.

(** X12.  For a direction with components in -1..1, not all zero, the loop of
    [getLinearMoves] is over after eight iterations (any larger number of
    iterations gives the same list), and from a square of the board it lists
    at most seven squares along the direction. *)
Theorem getLinearMoves_ray_bound (b : Board) (c : PieceColor) (d start : Position) :
  isDirection d ->
  (forall f, (boardSize <= f)%nat -> slide f b c d start = slide boardSize b c d start) /\
  (isValidPosition start = true ->
   (List.length (slide boardSize b c d start) <= 7)%nat).
Proof.
  intros Hd. split.
  - intros f Hf. now apply slide_fuel.
  - intros Hstart.
    change 7%nat with (List.length (map (rayAt start d) [1; 2; 3; 4; 5; 6; 7])).
    apply NoDup_incl_length; [now apply slide_NoDup|].
    intros m Hin. apply slide_In in Hin as (k & Hk & -> & _ & Hv & _).
    change (Z.of_nat boardSize) with 8 in Hk.
    assert (k <> 8).
    { intros ->. rewrite (ray_leaves_board d Hd start Hstart) in Hv. discriminate. }
    apply in_map.
    assert (k = 1 \/ k = 2 \/ k = 3 \/ k = 4 \/ k = 5 \/ k = 6 \/ k = 7) as H' by lia.
    cbn [In]. intuition congruence.
Qed.

Lemma getLinearMoves_ray_bound_witness :
  (forall f, (boardSize <= f)%nat ->
     slide f setupBoard WHITE (mkPosition 0 0 1) (mkPosition 1 1 1)
     = slide boardSize setupBoard WHITE (mkPosition 0 0 1) (mkPosition 1 1 1)) /\
  (isValidPosition (mkPosition 1 1 1) = true ->
   (List.length (slide boardSize setupBoard WHITE (mkPosition 0 0 1) (mkPosition 1 1 1))
    <= 7)%nat).
Proof.
  apply getLinearMoves_ray_bound. unfold isDirection. cbn [x y z]. lia.
Defined.

(** ** One call of [makeMove] *)

(** X13.  [makeMove] returns true exactly when the game is not over and the
    destination is among [getValidMovesForPosition] of the origin; a call
    that returns false returns the game as it was. *)
Theorem makeMove_accepts_iff (g : Game) (src dst : Position) :
  (fst (makeMove g src dst) = true <->
   state g <> CHECKMATE /\ state g <> STALEMATE /\
   In dst (getValidMovesForPosition g src)) /\
  (fst (makeMove g src dst) = false -> snd (makeMove g src dst) = g).
Proof.
  unfold makeMove, getValidMovesForPosition.
  destruct (state g) eqn:Hs; cbn [GameState_eqb orb fst snd].
  3,4: split; [split; [discriminate|intros (H1 & H2 & _); congruence]|reflexivity].
  all: destruct (getPiece (board g) src) as [p|]; cbn [fst snd];
    [|split; [split; [discriminate|intros (_ & _ & [])]|reflexivity]].
  all: destruct (PieceColor_eqb (color p) (currentTurn g)); cbn [negb fst snd];
    [|split; [split; [discriminate|intros (_ & _ & [])]|reflexivity]].
  all: destruct (isValidMove p dst (board g)) eqn:Hm; cbn [negb fst snd].
  all: try (apply isValidMove_In in Hm;
            split; [split; [intros _; repeat split; [discriminate..|assumption]
                           |reflexivity]
                   |discriminate]).
  all: split; [split; [discriminate|]|reflexivity].
  all: intros (_ & _ & Hin); apply isValidMove_In in Hin; congruence.
Qed.

(** X14.  An accepted move appends one record to the history: its origin and
    destination, the mover as it now stands on the destination, and the
    piece that stood on the destination before (none for an empty square);
    a captured piece is never of the mover's colour. *)
Theorem makeMove_records_move (g g' : Game) (src dst : Position) :
  makeMove g src dst = (true, g') ->
  exists p,
    getPiece (board g) src = Some p /\
    moves g' = moves g ++ [mkMove src dst (relocated p dst) (getPiece (board g) dst)] /\
    getPiece (board g') dst = Some (relocated p dst) /\
    (forall k, getPiece (board g) dst = Some k -> color k <> color p).
Proof.
  intros H. apply makeMove_accepted in H as (_ & _ & p & Hp & _ & Hin & ->).
  exists p. cbn [updateGameState moves board].
  split; [assumption|]. split; [reflexivity|]. split.
  - rewrite (movePiece_board _ _ _ _ Hp). apply JsMapFacts.get_set_same.
  - apply getValidMoves_safe in Hin as (_ & _ & Hfree).
    now apply isFreeOrOpponent_spec.
Qed.

Lemma makeMove_records_move_witness :
  exists p,
    getPiece (board createGame) (mkPosition 2 1 1) = Some p /\
    moves afterKnightMove =
      moves createGame ++
      [mkMove (mkPosition 2 1 1) (mkPosition 3 3 1) (relocated p (mkPosition 3 3 1))
              (getPiece (board createGame) (mkPosition 3 3 1))] /\
    getPiece (board afterKnightMove) (mkPosition 3 3 1)
      = Some (relocated p (mkPosition 3 3 1)) /\
    (forall k, getPiece (board createGame) (mkPosition 3 3 1) = Some k ->
               color k <> color p).
Proof.
  apply (makeMove_records_move createGame afterKnightMove).
  vm_compute. reflexivity.
Defined.

(** X15.  An accepted move changes the board on the origin and the
    destination only: every other square reads as before. *)
Theorem makeMove_frame (g g' : Game) (src dst q : Position) :
  makeMove g src dst = (true, g') -> q <> src -> q <> dst ->
  getPiece (board g') q = getPiece (board g) q.
Proof. apply makeMove_other_squares. Qed.

Lemma makeMove_frame_witness :
  getPiece (board afterKnightMove) (mkPosition 5 8 1)
  = getPiece (board createGame) (mkPosition 5 8 1).
Proof.
  apply (makeMove_frame createGame afterKnightMove (mkPosition 2 1 1) (mkPosition 3 3 1));
    [vm_compute; reflexivity|discriminate|discriminate].
Defined.

(** ** Invariants of the games reached from [createGame] *)

Ltac each_entry tac :=
  let l := eval vm_compute in setupBoard in change setupBoard with l;
  repeat (apply Forall_cons; [tac|]); apply Forall_nil.

Lemma setupBoard_entries :
  Forall (fun e =>
            fst e = positionToKey (position (snd e)) /\
            isValidPosition (position (snd e)) = true /\
            (type (snd e) = PAWN ->
             hasMoved (snd e) <> None /\
             y (position (snd e)) = expectedRank (snd e)) /\
            (type (snd e) = KING ->
             fst e = if PieceColor_eqb (color (snd e)) WHITE then "5,1,1" else "5,8,1"))
         setupBoard.
Proof.
  each_entry ltac:(cbn [fst snd type color position hasMoved];
                   repeat split; try reflexivity; try discriminate).
Qed.

Lemma entry_get (b : Board) (key : string) (p : Piece) :
  wfBoard b -> In (key, p) b -> JsMap.get b key = Some p.
Proof. apply JsMapFacts.In_get. Qed.

(** Every entry is stored under the key of its piece's position, on the
    board. *)
Lemma reachable_entries (g : Game) :
  reachable g ->
  forall key p, In (key, p) (board g) ->
    key = positionToKey (position p) /\ isValidPosition (position p) = true.
Proof.
  induction 1 as [|g g' src dst Hreach IH Hmove]; intros key p Hin.
  - pose proof setupBoard_entries as H. rewrite Forall_forall in H.
    destruct (H _ Hin) as (H1 & H2 & _). auto.
  - apply makeMove_accepted in Hmove as (_ & _ & p0 & Hp0 & _ & Hdst & ->).
    cbn [updateGameState board] in Hin.
    apply (movePiece_entries _ _ _ _ _ Hp0) in Hin as [(Hin & _)|[= -> ->]].
    + now apply IH.
    + cbn [relocated position]. split; [reflexivity|].
      now apply getValidMoves_safe in Hdst as (Hv & _).
Qed.

(** X16.  In every game reached from [createGame], a piece found on a square
    carries that square as its position, the square is on the board, and
    every piece listed by [getPiecesByColor] is found on its own position. *)
Theorem reachable_positions_agree (g : Game) :
  reachable g ->
  (forall q p, getPiece (board g) q = Some p ->
     position p = q /\ isValidPosition q = true) /\
  (forall c p, In p (getPiecesByColor (board g) c) ->
     getPiece (board g) (position p) = Some p).
Proof.
  intros Hreach. pose proof (reachable_wf _ Hreach) as Hwf. split.
  - intros q p Hq. apply JsMapFacts.get_In in Hq.
    destruct (reachable_entries g Hreach _ _ Hq) as [Hkey Hv].
    apply positionToKey_inj in Hkey. subst q. auto.
  - intros c p Hin. apply getPiecesByColor_In in Hin as [Hin _].
    apply in_map_iff in Hin as ([key p'] & Heq & Hin). simpl in Heq. subst p'.
    destruct (reachable_entries g Hreach _ _ Hin) as [-> _].
    now apply entry_get.
Qed.

Lemma reachable_positions_agree_witness :
  (forall q p, getPiece (board kinglessGame) q = Some p ->
     position p = q /\ isValidPosition q = true) /\
  (forall c p, In p (getPiecesByColor (board kinglessGame) c) ->
     getPiece (board kinglessGame) (position p) = Some p).
Proof.
  apply reachable_positions_agree.
  apply (playMoves_reachable kingHunt createGame); [constructor|].
  vm_compute. reflexivity.
Defined.

(** X17.  In every game reached from [createGame], White is to move after an
    even number of recorded moves and Black after an odd number. *)
Theorem reachable_turn_parity (g : Game) :
  reachable g ->
  currentTurn g = if Nat.even (List.length (moves g)) then WHITE else BLACK.
Proof.
  induction 1 as [|g g' src dst Hreach IH Hmove]; [reflexivity|].
  apply makeMove_accepted in Hmove as (_ & _ & p & _ & _ & _ & ->).
  cbn [updateGameState currentTurn moves].
  rewrite length_app, Nat.add_comm. cbn [List.length Nat.add].
  rewrite Nat.even_succ, <- Nat.negb_even, IH.
  now destruct (Nat.even (List.length (moves g))).
Qed.

Lemma reachable_turn_parity_witness :
  currentTurn kinglessGame
  = if Nat.even (List.length (moves kinglessGame)) then WHITE else BLACK.
Proof.
  apply reachable_turn_parity.
  apply (playMoves_reachable kingHunt createGame); [constructor|].
  vm_compute. reflexivity.
Defined.

(** X18.  In every game reached from [createGame], the initial one included,
    the recorded state is the classification of the board and the side to
    move (check, checkmate, active or stalemate as the king is attacked and
    the side has a destination). *)
Theorem reachable_state_classified (g : Game) :
  reachable g -> classified (board g) (currentTurn g) (state g).
Proof.
  induction 1 as [|g g' src dst Hreach IH Hmove].
  - apply classified_active.
    + rewrite <- isKingInCheck_spec.
      assert (H : isKingInCheck (board createGame) (currentTurn createGame) = false)
        by (vm_compute; reflexivity).
      rewrite H. discriminate.
    + apply (hasValidMoves_spec createGame). vm_compute. reflexivity.
  - apply makeMove_accepted in Hmove as (_ & _ & p & _ & _ & _ & ->).
    match goal with
    | |- classified _ _ (state (updateGameState ?g1)) =>
        exact (updateGameState_classified g1)
    end.
Qed.

Lemma reachable_state_classified_witness :
  classified (board kinglessGame) (currentTurn kinglessGame) (state kinglessGame).
Proof.
  apply reachable_state_classified.
  apply (playMoves_reachable kingHunt createGame); [constructor|].
  vm_compute. reflexivity.
Defined.

Lemma kinglessGame_reachable : reachable kinglessGame.
Proof.
  apply (playMoves_reachable kingHunt createGame); [constructor|].
  vm_compute. reflexivity.
Qed.

Lemma captureCount_app (ms : list Move) (m : Move) :
  captureCount (ms ++ [m]) =
  (captureCount ms + if isEmpty (capturedPiece m) then 0 else 1)%nat.
Proof.
  unfold captureCount. rewrite filter_app, length_app. simpl.
  now destruct (isEmpty (capturedPiece m)).
Qed.

(** X19.  In every game reached from [createGame], the pieces on the board
    and the captures recorded in the history add up to the 32 pieces of the
    initial layout: a piece leaves the board only through a recorded
    capture, and none is ever added. *)
Theorem reachable_piece_count (g : Game) :
  reachable g ->
  (List.length (board g) + captureCount (moves g) = 32)%nat.
Proof.
  induction 1 as [|g g' src dst Hreach IH Hmove]; [reflexivity|].
  pose proof (reachable_wf _ Hreach) as Hwf.
  apply makeMove_accepted in Hmove as (_ & _ & p & Hp & _ & Hdst & ->).
  cbn [updateGameState board moves].
  pose proof (destination_key_differs _ _ _ _ Hp Hdst) as Hk.
  rewrite (movePiece_board _ _ _ _ Hp), captureCount_app. cbn [capturedPiece].
  rewrite length_set, JsMapFacts.get_delete_same. cbn [isEmpty].
  pose proof (length_delete (board g) (positionToKey src) Hwf) as H1.
  unfold getPiece in Hp. rewrite Hp in H1. cbn [isEmpty] in H1.
  pose proof (length_delete (JsMap.delete (board g) (positionToKey src))
                (positionToKey dst) (JsMapFacts.NoDup_delete _ _ Hwf)) as H2.
  rewrite JsMapFacts.get_delete_other in H2 by assumption.
  unfold getPiece.
  destruct (isEmpty (JsMap.get (board g) (positionToKey dst))); lia.
Qed.

Lemma reachable_piece_count_witness :
  (List.length (board kinglessGame) + captureCount (moves kinglessGame) = 32)%nat.
Proof. exact (reachable_piece_count kinglessGame kinglessGame_reachable). Defined.

Lemma reachable_kings_entries (g : Game) (c : PieceColor) :
  reachable g ->
  forall e1 e2, In e1 (board g) -> In e2 (board g) ->
    isKing c (snd e1) -> isKing c (snd e2) -> fst e1 = fst e2.
Proof.
  induction 1 as [|g g' src dst Hreach IH Hmove]; intros e1 e2 H1 H2 K1 K2.
  - pose proof setupBoard_entries as H. rewrite Forall_forall in H.
    destruct (H _ H1) as (_ & _ & _ & E1). destruct (H _ H2) as (_ & _ & _ & E2).
    destruct K1 as [T1 C1], K2 as [T2 C2].
    rewrite (E1 T1), (E2 T2), C1, C2. reflexivity.
  - pose proof (reachable_wf _ Hreach) as Hwf.
    apply makeMove_accepted in Hmove as (_ & _ & p & Hp & _ & _ & ->).
    cbn [updateGameState board] in H1, H2.
    assert (Hsrc : In (positionToKey src, p) (board g))
      by (now apply JsMapFacts.get_In).
    apply (movePiece_entries _ _ _ _ _ Hp) in H1 as [(H1 & N1 & _)| ->];
      apply (movePiece_entries _ _ _ _ _ Hp) in H2 as [(H2 & N2 & _)| ->].
    + now apply IH.
    + exfalso. apply N1.
      apply (IH e1 (positionToKey src, p) H1 Hsrc K1). exact K2.
    + exfalso. apply N2.
      apply (IH e2 (positionToKey src, p) H2 Hsrc K2). exact K1.
    + reflexivity.
Qed.

(** X20.  In every game reached from [createGame] there is at most one king
    of each colour on the board: two squares that hold kings of the same
    colour are the same square. *)
Theorem reachable_one_king (g : Game) (c : PieceColor) (q1 q2 : Position)
    (k1 k2 : Piece) :
  reachable g ->
  getPiece (board g) q1 = Some k1 -> getPiece (board g) q2 = Some k2 ->
  isKing c k1 -> isKing c k2 -> q1 = q2.
Proof.
  intros Hreach H1 H2 K1 K2.
  apply JsMapFacts.get_In in H1. apply JsMapFacts.get_In in H2.
  apply positionToKey_inj.
  exact (reachable_kings_entries g c Hreach _ _ H1 H2 K1 K2).
Qed.

Lemma reachable_one_king_witness :
  getPiece (board kinglessGame) (mkPosition 5 1 1)
  = Some (mkPiece KING WHITE (mkPosition 5 1 1) (Some false)) /\
  mkPosition 5 1 1 = mkPosition 5 1 1.
Proof.
  assert (H : getPiece (board kinglessGame) (mkPosition 5 1 1)
              = Some (mkPiece KING WHITE (mkPosition 5 1 1) (Some false)))
    by (vm_compute; reflexivity).
  split; [exact H|].
  apply (reachable_one_king kinglessGame WHITE (mkPosition 5 1 1) (mkPosition 5 1 1)
           (mkPiece KING WHITE (mkPosition 5 1 1) (Some false))
           (mkPiece KING WHITE (mkPosition 5 1 1) (Some false))
           kinglessGame_reachable H H); split; reflexivity.
Defined.

Lemma reachable_hasMoved (g : Game) :
  reachable g ->
  forall key p, In (key, p) (board g) ->
    (type p = PAWN -> hasMoved p <> None) /\
    (hasMoved p = Some false -> In (key, p) setupBoard).
Proof.
  induction 1 as [|g g' src dst Hreach IH Hmove]; intros key p Hin.
  - split; [|auto]. pose proof setupBoard_entries as H. rewrite Forall_forall in H.
    destruct (H _ Hin) as (_ & _ & Hpawn & _). intros Ht. now apply Hpawn.
  - apply makeMove_accepted in Hmove as (_ & _ & p0 & Hp0 & _ & _ & ->).
    cbn [updateGameState board] in Hin.
    apply (movePiece_entries _ _ _ _ _ Hp0) in Hin as [(Hin & _)|[= -> ->]].
    + now apply IH.
    + apply JsMapFacts.get_In in Hp0. destruct (IH _ _ Hp0) as [Hpawn _].
      cbn [relocated type hasMoved]. split.
      * intros Ht. specialize (Hpawn Ht). now destruct (hasMoved p0).
      * now destruct (hasMoved p0).
Qed.

(** X21.  In every game reached from [createGame], a pawn that is offered the
    double step has not moved and stands on its initial rank: y = 2 for
    White, y = 7 for Black. *)
Theorem reachable_double_step_from_start (g : Game) (q : Position) (p : Piece) :
  reachable g ->
  getPiece (board g) q = Some p -> type p = PAWN ->
  In (doubleStep p) (getValidMoves p (board g)) ->
  hasMoved p = Some false /\
  y q = (if PieceColor_eqb (color p) WHITE then 2 else 7).
Proof.
  intros Hreach Hq Ht Hin.
  unfold getValidMoves in Hin. rewrite Ht in Hin.
  apply doubleStep_offered in Hin as (Hm & _).
  pose proof (JsMapFacts.get_In _ _ _ Hq) as Hentry.
  destruct (reachable_hasMoved g Hreach _ _ Hentry) as [Hpawn Hinit].
  assert (Hfalse : hasMoved p = Some false).
  { specialize (Hpawn Ht). destruct (hasMoved p) as [[|]|]; congruence. }
  split; [assumption|].
  destruct (reachable_entries g Hreach _ _ Hentry) as [Hkey _].
  apply positionToKey_inj in Hkey. subst q.
  pose proof setupBoard_entries as H. rewrite Forall_forall in H.
  destruct (H _ (Hinit Hfalse)) as (_ & _ & Hrank & _).
  cbn [snd] in Hrank. destruct (Hrank Ht) as [_ ->].
  unfold expectedRank. rewrite Ht. now destruct (color p).
Qed.

Lemma reachable_double_step_from_start_witness :
  hasMoved (mkPiece PAWN BLACK (mkPosition 2 7 1) (Some false)) = Some false /\
  y (mkPosition 2 7 1)
  = (if PieceColor_eqb (color (mkPiece PAWN BLACK (mkPosition 2 7 1) (Some false))) WHITE
     then 2 else 7).
Proof.
  apply (reachable_double_step_from_start kinglessGame (mkPosition 2 7 1)
           (mkPiece PAWN BLACK (mkPosition 2 7 1) (Some false))
           kinglessGame_reachable);
    [vm_compute; reflexivity|reflexivity|vm_compute; tauto].
Defined.

(** ** Numbers and coordinate text *)

Lemma readDigits_acc (d : Decimal.uint) : forall acc : positive,
  readDigits 10 (NilEmpty.string_of_uint d) (Some (Z.pos acc))
  = Some (Z.pos (Pos.of_uint_acc d acc)).
Proof.
  induction d; intros acc; cbn [NilEmpty.string_of_uint Pos.of_uint_acc];
    [reflexivity|..];
    cbn [readDigits].
  all: match goal with
       | |- context [digitValue 10 ?c] =>
           let v := eval vm_compute in (digitValue 10 c) in
           change (digitValue 10 c) with v
       end.
  all: cbv iota; rewrite <- IHd; do 2 f_equal; lia.
Qed.

Lemma readDigits_zero (d : Decimal.uint) :
  readDigits 10 (NilEmpty.string_of_uint d) (Some 0)
  = Some (Z.of_N (Pos.of_uint d)).
Proof.
  induction d; cbn [NilEmpty.string_of_uint Pos.of_uint]; [reflexivity|..];
    cbn [readDigits].
  all: match goal with
       | |- context [digitValue 10 ?c] =>
           let v := eval vm_compute in (digitValue 10 c) in
           change (digitValue 10 c) with v
       end.
  all: cbv iota; cbn [Z.mul Z.add].
  1: exact IHd.
  all: rewrite readDigits_acc; reflexivity.
Qed.

Lemma string_of_uint_head (d : Decimal.uint) :
  d <> Decimal.Nil ->
  exists c rest,
    NilEmpty.string_of_uint d = String c rest /\
    isWhiteSpace c = false /\ c <> "-"%char /\ c <> "+"%char /\
    (c = "0"%char -> forall r, rest <> String "x" r /\ rest <> String "X" r) /\
    digitValue 10 c <> None.
Proof.
  destruct d as [|d|d|d|d|d|d|d|d|d|d]; [congruence|..]; intros _;
    cbn [NilEmpty.string_of_uint]; eexists; eexists; (split; [reflexivity|]);
    (split; [reflexivity|]); (split; [discriminate|]); (split; [discriminate|]);
    (split; [|discriminate]); try discriminate.
  intros _ r. destruct d; cbn [NilEmpty.string_of_uint]; split; discriminate.
Qed.

Lemma parseInt_digits (d : Decimal.uint) :
  d <> Decimal.Nil ->
  parseInt (NilEmpty.string_of_uint d) = Some (Z.of_N (Pos.of_uint d)) /\
  parseInt (String "-" (NilEmpty.string_of_uint d)) = Some (- Z.of_N (Pos.of_uint d)).
Proof.
  intros Hd.
  destruct (string_of_uint_head d Hd) as (c & rest & E & Hw & Hm & Hp & Hx & Hdig).
  assert (Hread : readDigits 10 (String c rest) None = Some (Z.of_N (Pos.of_uint d))).
  { rewrite <- readDigits_zero, E. cbn [readDigits].
    destruct (digitValue 10 c); [reflexivity|congruence]. }
  assert (Hradix :
    (match String c rest with
     | String "0" (String "x" r) => (16, r)
     | String "0" (String "X" r) => (16, r)
     | _ => (10, String c rest)
     end) = (10, String c rest)).
  { destruct (Ascii.eqb_spec c "0") as [->|Hc0].
    - destruct rest as [|c1 r]; [reflexivity|].
      destruct (Hx eq_refl r) as [H1 H2].
      destruct (Ascii.eqb_spec c1 "x") as [->|N1]; [congruence|].
      destruct (Ascii.eqb_spec c1 "X") as [->|N2]; [congruence|].
      destruct c1 as [[|] [|] [|] [|] [|] [|] [|] [|]]; try reflexivity; congruence.
    - destruct c as [[|] [|] [|] [|] [|] [|] [|] [|]]; try reflexivity; congruence. }
  split.
  - unfold parseInt. rewrite E. cbn [trimStart]. rewrite Hw.
    replace (match String c rest with
             | String "-" r => (-1, r) | String "+" r => (1, r) | _ => (1, String c rest)
             end) with (1, String c rest).
    2:{ destruct c as [[|] [|] [|] [|] [|] [|] [|] [|]]; try reflexivity; congruence. }
    rewrite Hradix, Hread. f_equal; lia.
  - unfold parseInt. cbn [trimStart isWhiteSpace]. 
    change (isWhiteSpace "-") with false. cbv iota. rewrite E, Hradix, Hread.
    f_equal; lia.
Qed.

Lemma parseInt_printed (n : Z) : parseInt (numberToString n) = Some n.
Proof.
  unfold numberToString. destruct n as [|p|p]; [reflexivity| |];
    cbn [Z.to_int NilEmpty.string_of_int];
    pose proof (parseInt_digits (Pos.to_uint p) (DecimalPos.Unsigned.to_uint_nonnil p))
      as [H1 H2];
    rewrite DecimalPos.Unsigned.of_to in H1, H2; assumption.
Qed.

(** [parseInt] reads back every integer as the template literal prints it:
    [parseInt] of the printed form of [n] is [n]. *)
Theorem parseInt_numberToString (n : Z) : parseInt (numberToString n) = Some n.
Proof. apply parseInt_printed. Qed.

Lemma axis_cases (a : Z) :
  1 <= a <= 8 ->
  a = 1 \/ a = 2 \/ a = 3 \/ a = 4 \/ a = 5 \/ a = 6 \/ a = 7 \/ a = 8.
Proof. lia. Qed.

Lemma parsePosition_valid (s : string) (p : Position) :
  parsePosition s = Some p -> isValidPosition p = true.
Proof.
  unfold parsePosition.
  destruct (splitSeparators s "" false) as [|p0 [|p1 [|p2 [|? ?]]]]; try discriminate.
  destruct (parseInt p0) as [xv|]; [|discriminate].
  destruct (parseInt p1) as [yv|]; [|discriminate].
  destruct (parseInt p2) as [zv|]; [|discriminate].
  destruct ((xv <? 1) || (xv >? 8) || (yv <? 1) || (yv >? 8) || (zv <? 1) || (zv >? 8))
    eqn:Hr; [discriminate|].
  intros [= <-]. apply isValidPosition_bounds. cbn [x y z].
  rewrite !orb_false_iff in Hr.
  destruct Hr as (((((H1 & H2) & H3) & H4) & H5) & H6).
  apply Z.ltb_ge in H1, H3, H5.
  rewrite Z.gtb_ltb in H2, H4, H6. apply Z.ltb_ge in H2, H4, H6. lia.
Qed.

Lemma parsePosition_forms (p : Position) :
  isValidPosition p = true ->
  parsePosition (positionToKey p) = Some p /\
  parsePosition (numberToString (x p) ++ " " ++ numberToString (y p) ++ " " ++
                 numberToString (z p)) = Some p /\
  parsePosition (formatPosition p) = None.
Proof.
  intros H. apply isValidPosition_bounds in H.
  destruct p as [a b c]; cbn [x y z] in H.
  destruct H as (Ha & Hb & Hc).
  apply axis_cases in Ha, Hb, Hc.
  repeat (destruct Ha as [->|Ha]); subst;
    repeat (destruct Hb as [->|Hb]); subst;
    repeat (destruct Hc as [->|Hc]); subst;
    vm_compute; repeat split.
Qed.

Lemma notationToPosition_cons (c0 c1 c2 : ascii) (rest : string) :
  notationToPosition (String c0 (String c1 (String c2 rest))) =
  match parseInt (String c1 EmptyString), parseInt (String c2 rest) with
  | Some yv, Some zv =>
      let xv := upperCharCode c0 - charCode "A" + 1 in
      if (xv <? 1) || (xv >? 8) || (yv <? 1) || (yv >? 8) || (zv <? 1) || (zv >? 8)
      then None else Some (mkPosition xv yv zv)
  | _, _ => None
  end.
Proof.
  unfold notationToPosition.
  replace (Z.of_nat (String.length (String c0 (String c1 (String c2 rest)))) <? 3)
    with false; [reflexivity|].
  symmetry. apply Z.ltb_ge. cbn [String.length]. lia.
Qed.

Lemma file_char (a : Z) :
  1 <= a <= 8 ->
  exists cx, fromCharCode (charCode "A" + a - 1) = String cx EmptyString /\
             upperCharCode cx - charCode "A" + 1 = a.
Proof.
  intros H. apply axis_cases in H.
  repeat (destruct H as [->|H]); subst; eexists; split; reflexivity.
Qed.

Lemma digit_char (v : Z) :
  1 <= v <= 8 ->
  exists cv, numberToString v = String cv EmptyString /\
    forall c rest, digitValue 10 c = None ->
      parseInt (String cv (String c rest)) = Some v.
Proof.
  intros H. apply axis_cases in H.
  repeat (destruct H as [->|H]); subst; eexists; (split; [reflexivity|]);
    intros c rest Hc; unfold parseInt;
    match goal with
    | |- context [trimStart ?s] => change (trimStart s) with s
    end;
    cbv beta iota zeta; cbn [readDigits];
    match goal with
    | |- context [digitValue 10 ?d] =>
        let v := eval vm_compute in (digitValue 10 d) in
        change (digitValue 10 d) with v
    end;
    cbv beta iota; cbn [readDigits]; rewrite Hc; reflexivity.
Qed.

Lemma range_check (a b c : Z) :
  1 <= a <= 8 -> 1 <= b <= 8 -> 1 <= c <= 8 ->
  (a <? 1) || (a >? 8) || (b <? 1) || (b >? 8) || (c <? 1) || (c >? 8) = false.
Proof.
  intros Ha Hb Hc. rewrite !Z.gtb_ltb.
  rewrite !orb_false_iff, !Z.ltb_ge. lia.
Qed.

(** X23.  The notation decoder is lenient: for a position on the board it
    accepts any first character whose upper-case form is the file letter (so
    the lower-case letter too), and it ignores whatever follows the third
    character when that text does not start with a digit. *)
Theorem notationToPosition_lenient (p : Position) :
  isValidPosition p = true ->
  (forall c0, upperCharCode c0 = charCode "A" + x p - 1 ->
     notationToPosition (String c0 (numberToString (y p) ++ numberToString (z p)))
     = Some p) /\
  (forall c rest, digitValue 10 c = None ->
     notationToPosition (positionToNotation p ++ String c rest) = Some p).
Proof.
  intros H. apply isValidPosition_bounds in H.
  destruct p as [a b c]; cbn [x y z] in *. destruct H as (Ha & Hb & Hc).
  destruct (digit_char b Hb) as (cb & Eb & Pb).
  destruct (digit_char c Hc) as (cc & Ec & Pc).
  assert (Pb0 : parseInt (String cb EmptyString) = Some b)
    by (rewrite <- Eb; apply parseInt_printed).
  assert (Pc0 : parseInt (String cc EmptyString) = Some c)
    by (rewrite <- Ec; apply parseInt_printed).
  split.
  - intros c0 Hx. rewrite Eb, Ec. cbn [append].
    rewrite notationToPosition_cons, Pb0, Pc0. cbv zeta.
    replace (upperCharCode c0 - charCode "A" + 1) with a by lia.
    now rewrite range_check.
  - intros ch rest Hch. unfold positionToNotation; cbn [x y z].
    destruct (file_char a Ha) as (ca & Ea & Pa).
    rewrite Ea, Eb, Ec. cbn [append].
    rewrite notationToPosition_cons, Pb0, (Pc ch rest Hch). cbv zeta.
    rewrite Pa. now rewrite range_check.
Qed.

Lemma notationToPosition_lenient_witness :
  notationToPosition "c47" = Some (mkPosition 3 4 7) /\
  notationToPosition "C47 to D47" = Some (mkPosition 3 4 7).
Proof.
  destruct (notationToPosition_lenient (mkPosition 3 4 7) eq_refl) as [Hfile Htail].
  split.
  - apply (Hfile "c"%char). reflexivity.
  - apply (Htail " "%char "to D47"). reflexivity.
Defined.

(** X22.  [parsePosition] of the entry field reads a position of the board
    back from its map key ["x,y,z"] and from ["x y z"], returns only
    positions of the board, and rejects the form ["(x,y,z)"] in which
    [formatPosition] displays a position. *)
Theorem parsePosition_text :
  (forall p, isValidPosition p = true ->
     parsePosition (positionToKey p) = Some p /\
     parsePosition (numberToString (x p) ++ " " ++ numberToString (y p) ++ " " ++
                    numberToString (z p)) = Some p /\
     parsePosition (formatPosition p) = None) /\
  (forall s p, parsePosition s = Some p -> isValidPosition p = true).
Proof. split; [exact parsePosition_forms|exact parsePosition_valid]. Qed.

Lemma parsePosition_text_witness :
  parsePosition "3,4,7" = Some (mkPosition 3 4 7) /\
  parsePosition "3 4 7" = Some (mkPosition 3 4 7) /\
  parsePosition "(3,4,7)" = None.
Proof.
  exact (proj1 parsePosition_text (mkPosition 3 4 7) eq_refl).
Defined.

(** ** Kings, check and mobility *)

(** X24.  [findKing] returns a king of the colour that is on the board, and
    returns nothing exactly when the board holds no king of the colour. *)
Theorem findKing_found (b : Board) (c : PieceColor) :
  (forall k, findKing b c = Some k -> In k (JsMap.values b) /\ isKing c k) /\
  (findKing b c = None <-> forall p, In p (JsMap.values b) -> ~ isKing c p).
Proof.
  unfold findKing, isKing. split.
  - intros k E. apply find_some in E as [Hin Hk].
    apply PieceType_eqb_eq in Hk. apply getPiecesByColor_In in Hin as [Hin Hc].
    auto.
  - split.
    + intros E p Hin [Ht Hc].
      assert (Hf : PieceType_eqb (type p) KING = false).
      { apply (find_none _ _ E p). now apply getPiecesByColor_In. }
      rewrite Ht in Hf. discriminate.
    + intros Hno. destruct (find _ _) as [k|] eqn:E; [exfalso|reflexivity].
      apply find_some in E as [Hin Hk].
      apply PieceType_eqb_eq in Hk. apply getPiecesByColor_In in Hin as [Hin Hc].
      now apply (Hno k Hin).
Qed.

Lemma findKing_found_witness :
  In (mkPiece KING WHITE (mkPosition 5 1 1) (Some false)) (JsMap.values setupBoard) /\
  isKing WHITE (mkPiece KING WHITE (mkPosition 5 1 1) (Some false)).
Proof.
  apply (proj1 (findKing_found setupBoard WHITE)). vm_compute. reflexivity.
Defined.

(** X25.  [isKingInCheck] is true exactly when the first king of the colour
    found by [findKing] stands on a legal destination of some piece of the
    other colour; with no king of the colour on the board it is false. *)
Theorem isKingInCheck_iff (b : Board) (c : PieceColor) :
  (isKingInCheck b c = true <-> kingAttacked b c) /\
  (findKing b c = None -> isKingInCheck b c = false).
Proof.
  split; [apply isKingInCheck_spec|].
  unfold isKingInCheck. now intros ->.
Qed.

Lemma isKingInCheck_iff_witness :
  isKingInCheck (board kinglessGame) BLACK = false.
Proof.
  apply (proj2 (isKingInCheck_iff (board kinglessGame) BLACK)).
  vm_compute. reflexivity.
Defined.

(** X26.  [hasValidMoves] is true exactly when some piece of the colour on the
    board has a legal destination; whether the move would leave the own king
    attacked plays no part. *)
Theorem hasValidMoves_iff (g : Game) (c : PieceColor) :
  hasValidMoves g c = true <->
  exists p, In p (JsMap.values (board g)) /\ color p = c /\
            getValidMoves p (board g) <> [].
Proof. apply hasValidMoves_spec. Qed.
